(** * Vault indexing and querying: a shallow embedding of
    [scripts/vault/index_vault.py] and [scripts/vault/query_vault.py].

    The chunker [chunk_md], the indexer [index_vault] and the query
    printer [query] are translated from the Python source.  Python [str]
    values are sequences of Unicode code points, Python [int]s are
    unbounded integers, the [while] loop of the chunker is run with fuel
    (it does not terminate for every argument), and the vector store is a
    finite map keyed by id. *)

From Stdlib Require Import ZArith Lia List String Ascii.
From stdpp Require Import base list gmap pretty.

Local Open Scope Z_scope.

(** ** Python strings *)

(** A [str] is a list of code points; [len] is Python's [len]. *)
Abbreviation str := (list N).

Definition str_of (s : string) : str :=
  List.map N_of_ascii (list_ascii_of_string s).

Definition len {A} (l : list A) : Z := Z.of_nat (length l).

(** The characters Python treats as whitespace, both in [str.strip()] and
    for the regular expression class [\s] on [str] patterns
    (the interpreter's table of whitespace code points). *)
Definition isspace (c : N) : bool :=
  ((9 <=? c) && (c <=? 13) || (28 <=? c) && (c <=? 32)
   || (c =? 133) || (c =? 160) || (c =? 5760)
   || (8192 <=? c) && (c <=? 8202)
   || (c =? 8232) || (c =? 8233) || (c =? 8239) || (c =? 8287)
   || (c =? 12288))%N.

Definition SPACE : N := 32%N.

Fixpoint lstrip (s : str) : str :=
  match s with
  | [] => []
  | c :: s' => if isspace c then lstrip s' else s
  end.

Definition rstrip (s : str) : str := reverse (lstrip (reverse s)).

(** [s.strip()] *)
Definition strip (s : str) : str := rstrip (lstrip s).

(** [re.sub(r"\s+", " ", s)]: every maximal run of whitespace becomes one
    space.  [in_run] tells that the previous character belonged to the run
    being replaced. *)
Fixpoint re_sub_ws_from (in_run : bool) (s : str) : str :=
  match s with
  | [] => []
  | c :: s' =>
      if isspace c
      then (if in_run then re_sub_ws_from true s'
            else SPACE :: re_sub_ws_from true s')
      else c :: re_sub_ws_from false s'
  end.

Definition re_sub_ws (s : str) : str := re_sub_ws_from false s.

(** Python's slice [s[start:stop]] for integer bounds: a negative bound
    counts from the end, and both are clamped to [0, len s]. *)
Definition slice_bound (n i : Z) : Z :=
  if i <? 0 then Z.max (i + n) 0 else Z.min i n.

Definition py_slice {A} (s : list A) (start stop : Z) : list A :=
  let lo := slice_bound (len s) start in
  let hi := slice_bound (len s) stop in
  take (Z.to_nat (hi - lo)) (drop (Z.to_nat lo) s).

(** Truth value of a string: non-empty. *)
Definition truthy {A} (s : list A) : bool :=
  match s with [] => false | _ => true end.

(** ** The chunker: [chunk_md] (index_vault.py, lines 51-62) *)

(** Line 53: [content = re.sub(r"\s+", " ", content.strip())]. *)
Definition normalize (content : str) : str := re_sub_ws (strip content).

(** Lines 56-61, one unit of fuel per evaluation of the loop condition.
    [None] means that the fuel ran out before the loop was left. *)
Fixpoint chunk_md_loop (fuel : nat) (content path : str)
    (chunk_size overlap : Z) (start : Z) (chunks : list (str * str))
  : option (list (str * str)) :=
  match fuel with
  | O => None
  | S fuel' =>
      if start <? len content then
        let end_ := start + chunk_size in
        let chunk := py_slice content start end_ in
        let chunks' :=
          if truthy (strip chunk) then chunks ++ [(chunk, path)] else chunks in
        chunk_md_loop fuel' content path chunk_size overlap
                      (end_ - overlap) chunks'
      else Some chunks
  end.

Definition chunk_md (fuel : nat) (content path : str)
    (chunk_size overlap : Z) : option (list (str * str)) :=
  let content := normalize content in
  chunk_md_loop fuel content path chunk_size overlap 0 [].

(** The defaults of the signature. *)
Definition default_chunk_size : Z := 1000.
Definition default_overlap : Z := 200.

(** ** Windows: the closed form of the loop *)

(** The window of [chunk_size] characters that starts at offset [start]. *)
Definition window (content : str) (chunk_size start : Z) : str :=
  take (Z.to_nat chunk_size) (drop (Z.to_nat start) content).

(** Number of start offsets [0, step, 2*step, ...] that lie below [n]. *)
Definition window_count (n step : Z) : nat :=
  Z.to_nat ((n + step - 1) / step).

Definition window_starts (n step : Z) : list Z :=
  (fun k : nat => Z.of_nat k * step) <$> seq 0 (window_count n step).

Definition windows (content : str) (chunk_size overlap : Z) : list str :=
  window content chunk_size
    <$> window_starts (len content) (chunk_size - overlap).

(** A window is kept when it has a character that is not whitespace. *)
Definition nonblank (w : str) : bool := truthy (strip w).

Definition emit (path : str) (ws : list str) : list (str * str) :=
  (fun w => (w, path)) <$> List.filter nonblank ws.

(** Text in normal form: no whitespace at either end, and every
    whitespace character is a single space between two other characters.
    [prev_ws] tells that the previous character was whitespace (or that
    there is none). *)
Fixpoint tidy_from (prev_ws : bool) (s : str) : bool :=
  match s with
  | [] => negb prev_ws
  | c :: s' =>
      if isspace c
      then N.eqb c SPACE && negb prev_ws && tidy_from true s'
      else tidy_from false s'
  end.

Definition tidy (s : str) : bool :=
  match s with [] => true | _ => tidy_from true s end.

Definition has_nonws (s : str) : bool := existsb (fun c => negb (isspace c)) s.

(** ** The indexer: [index_vault] (index_vault.py, lines 65-92) *)

(** What [md.read_text(encoding="utf-8", errors="replace")] gives for one
    file: its text, or an exception with its message. *)
Inductive read_result :=
| ReadText (text : str)
| ReadError (e : str).

(** One path yielded by [vault.rglob("*.md")]: [md_path] is [str(md)],
    [md_rel] is [str(md.relative_to(vault))]. *)
Record md_file := {
  md_path : str;
  md_rel : str;
  md_read : read_result
}.

(** The part of the file system the indexer looks at: [vault_path] is
    [str(vault)], and [vault_rglob] lists the markdown files in the order
    in which [rglob] yields them. *)
Record vault_fs := {
  vault_path : str;
  vault_exists : bool;
  vault_rglob : list md_file
}.

(** The collection of the vector store, an external service: a finite map
    from id to document and metadata, on which [upsert] inserts or
    replaces by id, as the store's interface is described. *)
Abbreviation entry := (str * gmap str str)%type.

Definition upsert (documents : list str) (metadatas : list (gmap str str))
    (ids : list str) (coll : gmap str entry) : gmap str entry :=
  foldl (fun c '(i, dm) => <[i := dm]> c) coll
        (zip ids (zip documents metadatas)).

(** The local variables of lines 71-72, and the lines written to the
    standard error stream. *)
Record batch := {
  docs : list str;
  metas : list (gmap str str);
  ids : list str;
  idx : nat;
  skipped : list str
}.

Definition empty_batch : batch :=
  {| docs := []; metas := []; ids := []; idx := 0; skipped := [] |}.

(** Lines 78-81, once per chunk. *)
Definition append_chunk (rel : str) (b : batch) (c : str * str) : batch :=
  let '(chunk, _) := c in
  {| docs := docs b ++ [chunk];
     metas := metas b ++ [ {[ str_of "path" := rel ]} ];
     ids := ids b ++ [rel ++ str_of ":" ++ str_of (pretty (idx b))];
     idx := S (idx b);
     skipped := skipped b |}.

(** Lines 74-83, the body of the loop over the files. *)
Definition index_file (fuel : nat) (b : batch) (md : md_file) : option batch :=
  match md_read md with
  | ReadText text =>
      let rel := md_rel md in
      match chunk_md fuel text rel default_chunk_size default_overlap with
      | Some chunks => Some (foldl (append_chunk rel) b chunks)
      | None => None
      end
  | ReadError e =>
      Some {| docs := docs b; metas := metas b; ids := ids b; idx := idx b;
              skipped := skipped b
                ++ [str_of "Skip " ++ md_path md ++ str_of ": " ++ e] |}
  end.

(** Lines 71-83. *)
Fixpoint index_files (fuel : nat) (b : batch) (files : list md_file)
  : option batch :=
  match files with
  | [] => Some b
  | md :: rest =>
      match index_file fuel b md with
      | Some b' => index_files fuel b' rest
      | None => None
      end
  end.

(** A run of the script: the value returned (the exit code), the lines
    printed, the calls of [collection.upsert] with their arguments, and
    the collection afterwards. *)
Record run := {
  exit_code : Z;
  stdout : list str;
  stderr : list str;
  upsert_calls : list (list str * list (gmap str str) * list str);
  collection : gmap str entry
}.

Definition index_vault (fuel : nat) (fs : vault_fs) (coll : gmap str entry)
  : option run :=
  if negb (vault_exists fs) then
    Some {| exit_code := 1; stdout := [];
            stderr := [str_of "Vault path does not exist: " ++ vault_path fs];
            upsert_calls := []; collection := coll |}
  else
    match index_files fuel empty_batch (vault_rglob fs) with
    | None => None
    | Some b =>
        if negb (truthy (docs b)) then
          Some {| exit_code := 0; stdout := [str_of "No documents to index."];
                  stderr := skipped b;
                  upsert_calls := []; collection := coll |}
        else
          Some {| exit_code := 0;
                  stdout := [str_of "Indexed "
                               ++ str_of (pretty (length (docs b)))
                               ++ str_of " chunks from " ++ vault_path fs];
                  stderr := skipped b;
                  upsert_calls := [(docs b, metas b, ids b)];
                  collection := upsert (docs b) (metas b) (ids b) coll |}
    end.

(** ** The query printer: [query] (query_vault.py, lines 41-56) *)

(** The dictionary returned by [collection.query]: one list of documents
    and one list of metadata per query text; a metadata entry may be
    [None]. *)
Record query_result := {
  documents : option (list (list str));
  metadatas : option (list (list (option (gmap str str))))
}.

(** The call [collection.query(query_texts=[text], n_results=n)] returns,
    or raises an exception with a message. *)
Inductive query_reply :=
| QueryReturns (results : query_result)
| QueryRaises (e : str).

(** What a call of [query] does: the lines printed on standard output and
    on standard error, and the argument of [sys.exit] when it is called
    ([None]: the function returns). *)
Record outcome := {
  printed : list str;
  errors : list str;
  sys_exit : option Z
}.

(** The exit status of the process: that of [sys.exit], 0 when the script
    runs to its end. *)
Definition exit_status (o : outcome) : Z := default 0 (sys_exit o).

(** Line 48: [results["metadatas"][0][i] if results["metadatas"] else {}];
    on the left the message of the exception of an index out of range. *)
Definition meta_at (results : query_result) (i : nat)
  : str + option (gmap str str) :=
  match metadatas results with
  | None | Some [] => inr (Some ∅)
  | Some (metas0 :: _) =>
      match metas0 !! i with
      | Some meta => inr meta
      | None => inl (str_of "list index out of range")
      end
  end.

(** Line 49: [meta.get("path", meta.get("source", "unknown"))]. *)
Definition source_of (meta : gmap str str) : str :=
  default (default (str_of "unknown") (meta !! str_of "source"))
          (meta !! str_of "path").

(** Line 50: [doc[:500] + "..." if len(doc) > 500 else doc]. *)
Definition excerpt_of (doc : str) : str :=
  if 500 <? len doc then py_slice doc 0 500 ++ str_of "..." else doc.

(** Lines 51-53: the three [print] calls for result [i]. *)
Definition result_lines (i : nat) (path excerpt : str) : list str :=
  [ str_of "--- Result " ++ str_of (pretty (i + 1)%nat)
      ++ str_of " (Source: " ++ path ++ str_of ") ---";
    excerpt;
    [] ].

(** Lines 47-53: the loop over [enumerate(results["documents"][0])]; it
    stops at the first exception, whose message it returns. *)
Fixpoint query_loop (results : query_result) (i : nat) (ds : list str)
    (out : list str) : list str * option str :=
  match ds with
  | [] => (out, None)
  | doc :: rest =>
      match meta_at results i with
      | inl e => (out, Some e)
      | inr None =>
          (out, Some (str_of "'NoneType' object has no attribute 'get'"))
      | inr (Some meta) =>
          let path := source_of meta in
          let excerpt := excerpt_of doc in
          query_loop results (S i) rest (out ++ result_lines i path excerpt)
      end
  end.

(** Lines 54-56: the handler of the [try]. *)
Definition query_error (out : list str) (e : str) : outcome :=
  {| printed := out; errors := [str_of "Query error: " ++ e];
     sys_exit := Some 1 |}.

Definition no_results : outcome :=
  {| printed := [str_of "No relevant results found."]; errors := [];
     sys_exit := None |}.

Definition query (collection_query : str -> Z -> query_reply)
    (text : str) (n : Z) : outcome :=
  match collection_query text n with
  | QueryRaises e => query_error [] e
  | QueryReturns results =>
      match documents results with
      | None | Some [] => no_results
      | Some (docs0 :: _) =>
          if negb (truthy docs0) then no_results
          else
            match query_loop results 0 docs0 [] with
            | (out, None) => {| printed := out; errors := []; sys_exit := None |}
            | (out, Some e) => query_error out e
            end
      end
  end.

(** ** Configuration: [_default_embed_url]
    (index_vault.py, lines 26-30; query_vault.py, lines 18-22) *)

(** [s.lstrip(chars)] and [s.rstrip(chars)]: the characters of [chars]
    are removed from the end of [s]. *)
Fixpoint lstrip_chars (chars s : str) : str :=
  match s with
  | [] => []
  | c :: s' => if bool_decide (c ∈ chars) then lstrip_chars chars s' else s
  end.

Definition rstrip_chars (chars s : str) : str :=
  reverse (lstrip_chars chars (reverse s)).

(** [s.endswith(suffix)] *)
Definition endswith (s suffix : str) : bool :=
  bool_decide (suffix `suffix_of` s).

(** [os.environ.get(key) or other]: the value of the variable unless it
    is unset or empty. *)
Definition environ_get_or (environ : gmap str str) (key : str) (other : str)
  : str :=
  match environ !! key with
  | Some value => if truthy value then value else other
  | None => other
  end.

Definition _default_embed_url (environ : gmap str str) : str :=
  let url :=
    environ_get_or environ (str_of "VAULT_EMBEDDING_SERVER_URL")
                   (default [] (environ !! str_of "VAULT_EMBED_URL")) in
  if truthy url then
    if negb (endswith url (str_of "/v1"))
    then rstrip_chars (str_of "/") url ++ str_of "/v1"
    else url
  else str_of "http://127.0.0.1:8080/v1".

(** ** The first indexer: [index]
    (skills/index-vault/index_vault.py, lines 25-43) *)

Module Skill.

(** One path yielded by [glob.glob]: [doc_id] is
    [os.path.relpath(file_path, VAULT_PATH)], and [opened] is what opening
    and reading the file gives. *)
Record vault_file := {
  file_path : str;
  doc_id : str;
  opened : read_result
}.

(** The collection, the counter [indexed_count] and the lines printed. *)
Record state := {
  coll : gmap str entry;
  indexed_count : nat;
  out : list str
}.

(** Lines 29-42, the body of the loop. *)
Definition index_file (st : state) (f : vault_file) : state :=
  match opened f with
  | ReadText content =>
      if negb (truthy (strip content)) then st
      else
        {| coll := upsert [content] [ {[ str_of "path" := file_path f ]} ]
                          [doc_id f] (coll st);
           indexed_count := S (indexed_count st);
           out := out st |}
  | ReadError e =>
      {| coll := coll st; indexed_count := indexed_count st;
         out := out st
                  ++ [str_of "Error indexing " ++ file_path f
                        ++ str_of ": " ++ e] |}
  end.

Definition index (VAULT_PATH : str) (files : list vault_file)
    (c : gmap str entry) : state :=
  let st := foldl index_file {| coll := c; indexed_count := 0; out := [] |}
                  files in
  {| coll := coll st; indexed_count := indexed_count st;
     out := out st
              ++ [str_of "Successfully indexed "
                    ++ str_of (pretty (indexed_count st))
                    ++ str_of " files from " ++ VAULT_PATH] |}.

(** What [index_file] writes for a file, if anything. *)
Definition entry_of (f : vault_file) : option (str * entry) :=
  match opened f with
  | ReadText content =>
      if negb (truthy (strip content)) then None
      else Some (doc_id f, (content, {[ str_of "path" := file_path f ]}))
  | ReadError _ => None
  end.

End Skill.

(** ** The history sanitizer: [sanitize_history]
    (skills/forget/forget_tool.py, lines 14-54) *)





Module Forget.












End Forget.

(** ** The mail reader: two steps of [get_emails]
    (skills/check-email/check_email_tool.py, lines 28-31 and 61) *)

(** Line 28: [latest_ids = mail_ids[-limit:]]. *)
Definition latest_ids {A} (mail_ids : list A) (limit : Z) : list A :=
  py_slice mail_ids (- limit) (len mail_ids).

(** Line 31: the messages are fetched in the order of
    [reversed(latest_ids)]. *)
Definition fetch_order {A} (mail_ids : list A) (limit : Z) : list A :=
  reverse (latest_ids mail_ids limit).

(** Line 61: [body[:200].replace('\n', ' ').strip() + "..."]. *)
Definition snippet (body : str) : str :=
  strip ((fun c => if N.eqb c 10 then SPACE else c) <$> py_slice body 0 200)
    ++ str_of "...".

(** ** Vocabulary of the statements *)

(** The character "a" and the text that repeats it. *)
Definition letter_a : N := N_of_ascii "a".

(** The texts [texts], laid one after the other at the offsets
    [0, step, 2 * step, ...], reach position [pos]. *)
Definition covered_at (texts : list str) (step pos : Z) : Prop :=
  exists (k : nat) (c : str),
    texts !! k = Some c
    /\ Z.of_nat k * step <= pos < Z.of_nat k * step + len c.

Definition covers (texts : list str) (step : Z) (content : str) : Prop :=
  forall pos, 0 <= pos < len content -> covered_at texts step pos.

(** The last of the texts, laid at its offset, ends at position [n]. *)
Definition ends_at (texts : list str) (step n : Z) : Prop :=
  exists c, last texts = Some c /\ (len texts - 1) * step + len c = n.

(** Line 44 of query_vault.py:
    [not results["documents"] or not results["documents"][0]]. *)
Definition zero_documents (results : query_result) : bool :=
  match documents results with
  | None | Some [] => true
  | Some (docs0 :: _) => negb (truthy docs0)
  end.

(** The words of a text, as [s.split()] gives them: its maximal runs of
    characters that are not whitespace.  [cur] is the word being read. *)
Fixpoint split_from (cur : str) (s : str) : list str :=
  match s with
  | [] => if truthy cur then [cur] else []
  | c :: s' =>
      if isspace c
      then (if truthy cur then cur :: split_from [] s' else split_from [] s')
      else split_from (cur ++ [c]) s'
  end.

Definition split_ws (s : str) : list str := split_from [] s.

(** [" ".join(words)] *)
Fixpoint join_space (words : list str) : str :=
  match words with
  | [] => []
  | w :: rest =>
      match rest with
      | [] => w
      | _ => w ++ SPACE :: join_space rest
      end
  end.

(** Sample inputs. *)
Definition sample_path : str := str_of "notes/today.md".

(** Two layouts of the same three words: spaces, a tab and line breaks. *)
Definition sample_text : str :=
  str_of "  alpha   beta" ++ [10%N; 9%N] ++ str_of "gamma " ++ [10%N].

Definition sample_text_flat : str := str_of "alpha beta gamma".

(** Two small notes of a vault, and a vault root that does not exist. *)
Definition file_a : md_file :=
  {| md_path := str_of "/vault/a.md"; md_rel := str_of "a.md";
     md_read := ReadText (str_of "alpha") |}.

Definition file_b : md_file :=
  {| md_path := str_of "/vault/b.md"; md_rel := str_of "b.md";
     md_read := ReadText (str_of "beta") |}.

Definition file_locked : md_file :=
  {| md_path := str_of "/vault/c.md"; md_rel := str_of "c.md";
     md_read := ReadError (str_of "[Errno 13] Permission denied") |}.

Definition file_blank : md_file :=
  {| md_path := str_of "/vault/d.md"; md_rel := str_of "d.md";
     md_read := ReadText [10%N; 32%N; 10%N] |}.

Definition sample_vault (files : list md_file) : vault_fs :=
  {| vault_path := str_of "/vault"; vault_exists := true;
     vault_rglob := files |}.

Definition missing_vault : vault_fs :=
  {| vault_path := str_of "/vault"; vault_exists := false;
     vault_rglob := [] |}.

(** A document of 501 characters, and a store that answers every query
    with it. *)
Definition long_doc : str := repeat letter_a 501.

Definition long_doc_store (_ : str) (_ : Z) : query_reply :=
  QueryReturns
    {| documents := Some [[long_doc]];
       metadatas := Some [[Some {[ str_of "path" := sample_path ]}]] |}.

Definition failing_store (_ : str) (_ : Z) : query_reply :=
  QueryRaises (str_of "timed out").

Definition empty_store (_ : str) (_ : Z) : query_reply :=
  QueryReturns {| documents := Some [[]]; metadatas := Some [[]] |}.

(** The store answers with the documents and metadata of [dm], in order. *)
Definition reply_of (dm : list (str * gmap str str))
    (more_docs : list (list str))
    (more_metas : list (list (option (gmap str str)))) : query_reply :=
  QueryReturns
    {| documents := Some (dm.*1 :: more_docs);
       metadatas := Some ((Some <$> dm.*2) :: more_metas) |}.

(** A markdown file that gives the indexer nothing to write: it cannot be
    read, or its text is empty once normalized. *)
Definition gives_no_chunk (md : md_file) : Prop :=
  match md_read md with
  | ReadError _ => True
  | ReadText text => normalize text = []
  end.

(** The fuel covers the chunking of every readable file. *)
Definition fuel_covers (fuel : nat) (files : list md_file) : Prop :=
  forall md text,
    md ∈ files -> md_read md = ReadText text ->
    (length (normalize text) < fuel)%nat.

(** [md.read_text] returns for this file. *)
Definition is_readable (md : md_file) : bool :=
  match md_read md with ReadText _ => true | ReadError _ => false end.

(** The listing without the files that cannot be read. *)
Definition readable_only (fs : vault_fs) : vault_fs :=
  {| vault_path := vault_path fs; vault_exists := vault_exists fs;
     vault_rglob := List.filter is_readable (vault_rglob fs) |}.

(** The lines that [query] prints for the documents of [dm], numbered
    from [i + 1]. *)
Definition lines_from (i : nat) (dm : list (str * gmap str str)) : list str :=
  concat (imap (fun j '(doc, meta) =>
                  result_lines (i + j) (source_of meta) (excerpt_of doc)) dm).

(** What holds of the lists of a batch while the files [files] are read:
    the three lists have [idx] elements, and the [k]-th id, metadata and
    document come from one chunk of one of the files. *)
Definition batch_ok (fuel : nat) (files : list md_file) (b : batch) : Prop :=
  length (docs b) = idx b /\ length (metas b) = idx b
  /\ length (ids b) = idx b
  /\ forall (k : nat) id,
       ids b !! k = Some id ->
       exists md text chunks doc,
         md ∈ files /\ md_read md = ReadText text
         /\ chunk_md fuel text (md_rel md) default_chunk_size default_overlap
            = Some chunks
         /\ (doc, md_rel md) ∈ chunks
         /\ id = md_rel md ++ str_of ":" ++ str_of (pretty k)
         /\ metas b !! k = Some {[ str_of "path" := md_rel md ]}
         /\ docs b !! k = Some doc.

(** A store whose reply has a dictionary for the first of two documents
    and [None] for the second. *)
Definition half_meta_store (_ : str) (_ : Z) : query_reply :=
  QueryReturns
    {| documents := Some [[str_of "first"; str_of "second"]];
       metadatas := Some [[Some {[ str_of "path" := sample_path ]}; None]] |}.

(** Sample files for the first indexer. *)
Definition skill_file_a : Skill.vault_file :=
  {| Skill.file_path := str_of "/vault/a.md"; Skill.doc_id := str_of "a.md";
     Skill.opened := ReadText (str_of "alpha") |}.

Definition skill_file_b : Skill.vault_file :=
  {| Skill.file_path := str_of "/vault/b.md"; Skill.doc_id := str_of "b.md";
     Skill.opened := ReadText (str_of "beta") |}.






(** ** Facts about the string primitives *)

Section Primitives.

Lemma len_nonneg {A} (l : list A) : 0 <= len l.
Proof. unfold len. lia. Qed.

Lemma lstrip_nil_iff s : lstrip s = [] <-> has_nonws s = false.
Proof.
  induction s as [|c s IH]; simpl; [tauto|].
  destruct (isspace c); simpl; [exact IH|]. split; discriminate.
Qed.

Lemma lstrip_head s c r : lstrip s = c :: r -> isspace c = false.
Proof.
  induction s as [|d s IH]; simpl; [discriminate|].
  destruct (isspace d) eqn:E; [exact IH|]. intros [= <- _]. exact E.
Qed.

Lemma lstrip_snoc_nonws l c : isspace c = false -> lstrip (l ++ [c]) <> [].
Proof.
  intros Hc. induction l as [|d l IH]; simpl.
  - rewrite Hc. discriminate.
  - destruct (isspace d); [exact IH | discriminate].
Qed.

Lemma lstrip_id c s : isspace c = false -> lstrip (c :: s) = c :: s.
Proof. intros H. simpl. now rewrite H. Qed.

Lemma has_nonws_app s t : has_nonws (s ++ t) = has_nonws s || has_nonws t.
Proof. apply existsb_app. Qed.

Lemma has_nonws_reverse s : has_nonws (reverse s) = has_nonws s.
Proof.
  induction s as [|c s IH]; [reflexivity|].
  rewrite reverse_cons, has_nonws_app, IH. simpl.
  rewrite orb_false_r. apply orb_comm.
Qed.

(** [if chunk.strip():] holds exactly when the chunk has a character that
    is not whitespace. *)
Lemma nonblank_has_nonws w : nonblank w = has_nonws w.
Proof.
  unfold nonblank, strip, rstrip.
  destruct (lstrip w) as [|c r] eqn:E.
  - apply lstrip_nil_iff in E. now rewrite E.
  - assert (Hc := lstrip_head _ _ _ E).
    assert (Hw : has_nonws w = true).
    { destruct (has_nonws w) eqn:F; [reflexivity|].
      apply lstrip_nil_iff in F. congruence. }
    rewrite Hw, reverse_cons.
    destruct (lstrip (reverse r ++ [c])) as [|d t] eqn:F.
    + now apply lstrip_snoc_nonws in F.
    + rewrite reverse_cons. now destruct (reverse t).
Qed.

Lemma has_nonws_elem s :
  has_nonws s = true <-> exists c, c ∈ s /\ isspace c = false.
Proof.
  unfold has_nonws. rewrite existsb_exists. split.
  - intros (c & Hin & Hc). exists c. rewrite list_elem_of_In.
    split; [exact Hin|]. now destruct (isspace c).
  - intros (c & Hin & Hc). exists c. rewrite <- list_elem_of_In.
    split; [exact Hin|]. now rewrite Hc.
Qed.

(** A slice with a start inside the text and a size that is not negative
    is the plain window. *)
Lemma py_slice_window content chunk_size start :
  0 <= start -> 0 <= chunk_size ->
  py_slice content start (start + chunk_size) = window content chunk_size start.
Proof.
  intros Hs Hc. unfold py_slice, window, slice_bound.
  assert (Hn := len_nonneg content).
  destruct (Z.ltb_spec start 0); [lia|].
  destruct (Z.ltb_spec (start + chunk_size) 0); [lia|].
  destruct (Z.le_gt_cases (len content) start) as [Hge|Hlt].
  - rewrite !Z.min_r by lia.
    rewrite (drop_ge content (Z.to_nat start)) by (unfold len in *; lia).
    rewrite drop_ge by (unfold len in *; lia).
    now rewrite !take_nil.
  - rewrite (Z.min_l start) by lia.
    destruct (Z.le_gt_cases (start + chunk_size) (len content)).
    + rewrite Z.min_l by lia. f_equal. lia.
    + rewrite Z.min_r by lia.
      rewrite !take_ge; [reflexivity | |];
        rewrite length_drop; unfold len in *; lia.
Qed.

End Primitives.

(** ** Normalized text *)

Section Normalize.

Lemma isspace_SPACE : isspace SPACE = true.
Proof. reflexivity. Qed.

Lemma lstrip_snoc_shape l c :
  isspace c = false -> exists l', lstrip (l ++ [c]) = l' ++ [c].
Proof.
  intros Hc. induction l as [|d l IH]; simpl.
  - rewrite Hc. now exists [].
  - destruct (isspace d); [exact IH|]. now exists (d :: l).
Qed.

(** The result of [strip] is empty, or starts and ends with characters
    that are not whitespace. *)
Lemma strip_shape s :
  strip s = [] \/
  exists c r d, strip s = c :: r /\ isspace c = false
                /\ last (strip s) = Some d /\ isspace d = false.
Proof.
  unfold strip, rstrip.
  destruct (lstrip s) as [|c r] eqn:E; [now left|right].
  assert (Hc := lstrip_head _ _ _ E).
  rewrite reverse_cons.
  destruct (lstrip_snoc_shape (reverse r) c Hc) as [l' Hl'].
  destruct (lstrip (reverse r ++ [c])) as [|d t] eqn:F.
  { now destruct l'. }
  assert (Hd := lstrip_head _ _ _ F).
  rewrite Hl', reverse_app. simpl.
  exists c, (reverse l'), d. repeat split; try assumption.
  change (c :: reverse l') with (reverse [c] ++ reverse l').
  rewrite <- reverse_app, <- Hl', last_reverse. reflexivity.
Qed.

Lemma tidy_from_weaken s : tidy_from true s = true -> tidy_from false s = true.
Proof.
  destruct s as [|c s]; simpl; [discriminate|].
  destruct (isspace c); [|trivial]. rewrite andb_false_r. discriminate.
Qed.

Lemma re_sub_ws_tidy s :
  (forall d, last s = Some d -> isspace d = false) ->
  tidy_from false (re_sub_ws_from false s) = true
  /\ (s <> [] -> tidy_from true (re_sub_ws_from true s) = true).
Proof.
  induction s as [|c s IH]; intros Hlast; [now split|].
  destruct s as [|c' s].
  - assert (Hc : isspace c = false) by (apply Hlast; reflexivity).
    simpl. rewrite Hc. simpl. rewrite Hc. split; [reflexivity|].
    intros _. reflexivity.
  - destruct IH as [IH1 IH2].
    { intros d Hd. apply Hlast. exact Hd. }
    specialize (IH2 ltac:(discriminate)).
    remember (c' :: s) as t.
    cbn [re_sub_ws_from]. destruct (isspace c) eqn:Hc.
    + split; [|intros _; exact IH2].
      cbn [tidy_from]. rewrite isspace_SPACE, IH2. reflexivity.
    + cbn [tidy_from]. rewrite Hc. split; [exact IH1 | intros _; exact IH1].
Qed.

(** Line 53 leaves a text in normal form. *)
Lemma normalize_tidy content : tidy (normalize content) = true.
Proof.
  unfold normalize, re_sub_ws.
  destruct (strip_shape content) as [E|(c & r & d & E & Hc & Hl & Hd)].
  - now rewrite E.
  - rewrite E in Hl |- *. simpl. rewrite Hc. simpl. rewrite Hc.
    apply re_sub_ws_tidy. intros d' Hd'.
    destruct r as [|c' r]; [discriminate|].
    rewrite last_cons_cons, Hd' in Hl. now injection Hl as ->.
Qed.

Lemma tidy_from_last p s d :
  tidy_from p s = true -> last s = Some d -> isspace d = false.
Proof.
  revert p. induction s as [|c s IH]; intros p Ht Hl; [discriminate|].
  simpl in Ht. destruct s as [|c' s].
  - injection Hl as <-. destruct (isspace c); [|reflexivity].
    simpl in Ht. rewrite andb_false_r in Ht. discriminate.
  - rewrite last_cons_cons in Hl.
    destruct (isspace c).
    + apply andb_true_iff in Ht as [_ Ht]. now apply (IH true).
    + now apply (IH false).
Qed.

Lemma tidy_from_adjacent p s i c d :
  tidy_from p s = true -> s !! i = Some c -> s !! S i = Some d ->
  isspace c = false \/ isspace d = false.
Proof.
  revert p i. induction s as [|x s IH]; intros p i Ht Hc Hd; [discriminate|].
  simpl in Ht. destruct i as [|i].
  - injection Hc as ->. destruct (isspace c) eqn:Ec; [|now left].
    right. apply andb_true_iff in Ht as [_ Ht].
    destruct s as [|y s]; [discriminate|]. injection Hd as ->.
    simpl in Ht. destruct (isspace d); [|reflexivity].
    rewrite andb_false_r in Ht. discriminate.
  - destruct (isspace x).
    + apply andb_true_iff in Ht as [_ Ht]. exact (IH true i Ht Hc Hd).
    + exact (IH false i Ht Hc Hd).
Qed.

Lemma tidy_from_re_sub_ws p s :
  tidy_from p s = true -> re_sub_ws_from p s = s.
Proof.
  revert p. induction s as [|c s IH]; intros p Ht; [reflexivity|].
  simpl in *. destruct (isspace c).
  - apply andb_true_iff in Ht as [Ht1 Ht].
    apply andb_true_iff in Ht1 as [Hc Hp].
    apply N.eqb_eq in Hc. destruct p; [discriminate|].
    rewrite (IH true Ht). now subst c.
  - now rewrite (IH false Ht).
Qed.

Lemma tidy_strip s : tidy s = true -> strip s = s.
Proof.
  destruct s as [|c s]; [reflexivity|]. intros Ht. unfold tidy in Ht.
  assert (Hc : isspace c = false).
  { cbn [tidy_from] in Ht. destruct (isspace c); [|reflexivity].
    cbn [negb] in Ht. rewrite andb_false_r in Ht. discriminate. }
  unfold strip, rstrip. rewrite (lstrip_id c s Hc).
  destruct (last (c :: s)) as [d|] eqn:Hl;
    [|apply last_None in Hl; discriminate].
  assert (Hd := tidy_from_last _ _ _ Ht Hl).
  rewrite <- head_reverse in Hl.
  destruct (reverse (c :: s)) as [|d' t] eqn:E; [discriminate|].
  injection Hl as ->. rewrite (lstrip_id d t Hd), <- E.
  apply reverse_involutive.
Qed.

(** A text in normal form is left as it is. *)
Lemma tidy_normalize s : tidy s = true -> normalize s = s.
Proof.
  intros Ht. unfold normalize, re_sub_ws. rewrite (tidy_strip s Ht).
  destruct s as [|c s]; [reflexivity|].
  apply tidy_from_re_sub_ws, tidy_from_weaken, Ht.
Qed.

Lemma normalize_idem content : normalize (normalize content) = normalize content.
Proof. apply tidy_normalize, normalize_tidy. Qed.

(** *** Normalization keeps the words and joins them with one space *)

Lemma lstrip_decompose s : exists t, s = t ++ lstrip s /\ has_nonws t = false.
Proof.
  induction s as [|c s (t & E & Ht)]; [now exists []|]. simpl.
  destruct (isspace c) eqn:Hc.
  - exists (c :: t). simpl. rewrite Hc, Ht. split; [now f_equal|reflexivity].
  - now exists [].
Qed.

Lemma rstrip_decompose s : exists t, s = rstrip s ++ t /\ has_nonws t = false.
Proof.
  destruct (lstrip_decompose (reverse s)) as (t & E & Ht).
  exists (reverse t). split; [|now rewrite has_nonws_reverse].
  unfold rstrip. rewrite <- reverse_app, <- E. now rewrite reverse_involutive.
Qed.

Lemma split_from_ws_prefix t s :
  has_nonws t = false -> split_from [] (t ++ s) = split_from [] s.
Proof.
  induction t as [|c t IH]; [reflexivity|]. simpl.
  destruct (isspace c); simpl; [exact IH | discriminate].
Qed.

Lemma split_from_ws_snoc cur s c :
  isspace c = true -> split_from cur (s ++ [c]) = split_from cur s.
Proof.
  intros Hc. revert cur. induction s as [|d s IH]; intros cur; simpl.
  - rewrite Hc. now destruct (truthy cur).
  - destruct (isspace d), (truthy cur); now rewrite IH.
Qed.

Lemma split_from_ws_suffix cur s t :
  has_nonws t = false -> split_from cur (s ++ t) = split_from cur s.
Proof.
  revert s. induction t as [|c t IH]; intros s Ht; [now rewrite app_nil_r|].
  simpl in Ht. apply orb_false_iff in Ht as [Hc Ht].
  apply negb_false_iff in Hc.
  change (c :: t) with ([c] ++ t). rewrite app_assoc, IH by exact Ht.
  now apply split_from_ws_snoc.
Qed.

Lemma split_ws_strip s : split_ws (strip s) = split_ws s.
Proof.
  unfold split_ws, strip.
  destruct (lstrip_decompose s) as (t & E & Ht).
  destruct (rstrip_decompose (lstrip s)) as (t' & E' & Ht').
  rewrite E at 2. rewrite split_from_ws_prefix by exact Ht.
  rewrite E' at 2. now rewrite split_from_ws_suffix by exact Ht'.
Qed.

Lemma split_from_re_sub_ws s :
  forall cur b, (b = true -> cur = []) ->
    split_from cur (re_sub_ws_from b s) = split_from cur s.
Proof.
  induction s as [|c s IH]; intros cur b Hb; [reflexivity|].
  cbn [re_sub_ws_from]. destruct (isspace c) eqn:Hc.
  - destruct b.
    + rewrite (Hb eq_refl). cbn [split_from truthy]. rewrite Hc.
      now apply IH.
    + cbn [split_from]. rewrite isspace_SPACE, Hc.
      now rewrite (IH [] true).
  - cbn [split_from]. rewrite Hc. now apply IH.
Qed.

Lemma split_ws_normalize content : split_ws (normalize content) = split_ws content.
Proof.
  unfold normalize, re_sub_ws, split_ws.
  rewrite split_from_re_sub_ws by discriminate. apply split_ws_strip.
Qed.

Lemma split_from_nonnil cur s : cur <> [] -> split_from cur s <> [].
Proof.
  revert cur. induction s as [|c s IH]; intros cur Hcur; simpl.
  - now destruct cur.
  - destruct (isspace c).
    + now destruct cur.
    + apply IH. now destruct cur.
Qed.

Lemma join_space_cons w rest :
  rest <> [] -> join_space (w :: rest) = w ++ SPACE :: join_space rest.
Proof. now destruct rest. Qed.

Lemma join_split_from s :
  (forall d, last s = Some d -> isspace d = false) ->
  (forall cur, cur <> [] ->
     join_space (split_from cur s) = cur ++ re_sub_ws_from false s)
  /\ (s <> [] ->
      join_space (split_from [] s) = re_sub_ws_from true s
      /\ split_from [] s <> []).
Proof.
  induction s as [|c s IH]; intros Hlast.
  { split; [|contradiction]. intros cur Hcur. simpl.
    destruct cur; [contradiction|]. simpl. now rewrite app_nil_r. }
  assert (Hs : forall d, last s = Some d -> isspace d = false).
  { intros d Hd. apply Hlast. destruct s; [discriminate|].
    now rewrite last_cons_cons. }
  destruct (IH Hs) as [IHA IHB]. clear IH.
  cbn [split_from re_sub_ws_from]. destruct (isspace c) eqn:Hc.
  - assert (Hne : s <> []).
    { intros ->. specialize (Hlast c eq_refl). congruence. }
    destruct (IHB Hne) as [IHB1 IHB2]. split.
    + intros cur Hcur. destruct cur as [|x cur]; [contradiction|].
      cbn [truthy]. rewrite join_space_cons by exact IHB2.
      now rewrite IHB1.
    + intros _. cbn [truthy]. split; assumption.
  - split.
    + intros cur Hcur. rewrite IHA by (now destruct cur).
      now rewrite <- app_assoc.
    + intros _. cbn [app]. split.
      * now rewrite IHA.
      * now apply split_from_nonnil.
Qed.

(** Line 53 joins the words of the text with single spaces. *)
Lemma normalize_join_split content :
  normalize content = join_space (split_ws content).
Proof.
  rewrite <- split_ws_strip. unfold normalize, re_sub_ws, split_ws.
  destruct (strip_shape content) as [E|(c & r & d & E & Hc & Hl & Hd)].
  - now rewrite E.
  - rewrite E in Hl |- *. cbn [split_from re_sub_ws_from]. rewrite Hc.
    cbn [app].
    assert (Hr : forall d', last r = Some d' -> isspace d' = false).
    { intros d' Hd'. destruct r as [|c' r]; [discriminate|].
      rewrite last_cons_cons, Hd' in Hl. now injection Hl as ->. }
    now rewrite (proj1 (join_split_from r Hr) [c]).
Qed.

(** Two texts have the same normal form exactly when they have the same
    words in the same order. *)
Lemma normalize_eq_iff_words content1 content2 :
  normalize content1 = normalize content2
  <-> split_ws content1 = split_ws content2.
Proof.
  split; intros H.
  - now rewrite <- (split_ws_normalize content1), H, split_ws_normalize.
  - now rewrite !normalize_join_split, H.
Qed.

End Normalize.

(** ** The loop of the chunker and its windows *)

Section Windows.

Lemma window_count_spec n step (k : nat) :
  0 <= n -> 0 < step ->
  (k < window_count n step)%nat <-> Z.of_nat k * step < n.
Proof.
  intros Hn Hs. unfold window_count.
  set (q := (n + step - 1) / step).
  assert (Hlo : step * q <= n + step - 1) by (apply Z.mul_div_le; lia).
  assert (Hhi : n + step - 1 < step * Z.succ q)
    by (apply Z.mul_succ_div_gt; lia).
  assert (Hq : 0 <= q) by (apply Z.div_pos; lia).
  split; intros H; [|apply Nat2Z.inj_lt; rewrite Z2Nat.id by lia]; nia.
Qed.

Lemma window_count_le n step :
  0 <= n -> 0 < step -> Z.of_nat (window_count n step) <= n.
Proof.
  intros Hn Hs. unfold window_count.
  set (q := (n + step - 1) / step).
  assert (Hlo : step * q <= n + step - 1) by (apply Z.mul_div_le; lia).
  assert (Hq : 0 <= q) by (apply Z.div_pos; lia).
  rewrite Z2Nat.id by lia. nia.
Qed.

Lemma emit_cons path w ws :
  emit path (w :: ws)
  = (if nonblank w then [(w, path)] else []) ++ emit path ws.
Proof. unfold emit. simpl. now destruct (nonblank w). Qed.

(** The loop started at the [j]-th offset appends the windows that are
    left, each one when it is not blank, and then stops. *)
Lemma chunk_md_loop_windows content path chunk_size overlap m :
  0 <= chunk_size -> overlap < chunk_size ->
  forall fuel (j : nat) chunks,
    (j + m = window_count (len content) (chunk_size - overlap))%nat ->
    (m < fuel)%nat ->
    chunk_md_loop fuel content path chunk_size overlap
                  (Z.of_nat j * (chunk_size - overlap)) chunks
    = Some (chunks ++ emit path
              (window content chunk_size
                 <$> ((fun k : nat => Z.of_nat k * (chunk_size - overlap))
                        <$> seq j m))).
Proof.
  intros Hc Ho. assert (Hn := len_nonneg content).
  induction m as [|m IH]; intros fuel j chunks Hj Hf;
    (destruct fuel as [|fuel]; [lia|]); cbn [chunk_md_loop].
  - assert (~ Z.of_nat j * (chunk_size - overlap) < len content) as Hge.
    { rewrite <- window_count_spec by lia. lia. }
    destruct (Z.ltb_spec (Z.of_nat j * (chunk_size - overlap)) (len content));
      [contradiction|].
    simpl. unfold emit. simpl. now rewrite app_nil_r.
  - assert (Z.of_nat j * (chunk_size - overlap) < len content) as Hlt.
    { rewrite <- window_count_spec by lia. lia. }
    destruct (Z.ltb_spec (Z.of_nat j * (chunk_size - overlap)) (len content));
      [|lia].
    rewrite py_slice_window by nia.
    replace (Z.of_nat j * (chunk_size - overlap) + chunk_size - overlap)
      with (Z.of_nat (S j) * (chunk_size - overlap)) by lia.
    rewrite IH by lia.
    cbn [seq fmap list_fmap]. rewrite emit_cons.
    fold (nonblank (window content chunk_size
                           (Z.of_nat j * (chunk_size - overlap)))).
    destruct (nonblank _); [rewrite <- app_assoc|]; reflexivity.
Qed.

(** With a chunk size that is not negative and a smaller overlap, the
    chunker returns the windows that are not blank, in order; one more
    unit of fuel than the text has characters is enough. *)
Lemma chunk_md_closed fuel content path chunk_size overlap :
  0 <= chunk_size -> overlap < chunk_size ->
  (length (normalize content) < fuel)%nat ->
  chunk_md fuel content path chunk_size overlap
  = Some (emit path (windows (normalize content) chunk_size overlap)).
Proof.
  intros Hc Ho Hf. unfold chunk_md, windows, window_starts.
  assert (Hn := len_nonneg (normalize content)).
  assert (Hle := window_count_le (len (normalize content))
                   (chunk_size - overlap) Hn ltac:(lia)).
  change 0 with (Z.of_nat 0 * (chunk_size - overlap)).
  rewrite (chunk_md_loop_windows _ _ _ _
             (window_count (len (normalize content)) (chunk_size - overlap)));
    [reflexivity | lia | lia | lia | unfold len in *; lia].
Qed.

(** When the overlap is not smaller than the chunk size, the start offset
    never passes 0 and the loop over a non-empty text is never left. *)
Lemma chunk_md_loop_stuck content path chunk_size overlap :
  chunk_size <= overlap -> content <> [] ->
  forall fuel start chunks,
    start <= 0 ->
    chunk_md_loop fuel content path chunk_size overlap start chunks = None.
Proof.
  intros Hco Hne. assert (0 < len content) as Hn.
  { destruct content; [contradiction|]. unfold len. simpl. lia. }
  induction fuel as [|fuel IH]; intros start chunks Hs; [reflexivity|].
  cbn [chunk_md_loop].
  destruct (Z.ltb_spec start (len content)); [|lia].
  apply IH. lia.
Qed.

End Windows.

(** ** Windows of a normalized text *)

Section WindowFacts.

Lemma chunk_md_loop_mono fuel fuel' content path chunk_size overlap
    start chunks r :
  chunk_md_loop fuel content path chunk_size overlap start chunks = Some r ->
  (fuel <= fuel')%nat ->
  chunk_md_loop fuel' content path chunk_size overlap start chunks = Some r.
Proof.
  revert fuel' start chunks.
  induction fuel as [|fuel IH]; intros fuel' start chunks H Hle;
    [discriminate|].
  destruct fuel' as [|fuel']; [lia|]. cbn [chunk_md_loop] in *.
  destruct (start <? len content); [|exact H].
  apply IH; [exact H | lia].
Qed.

Lemma window_length content chunk_size start :
  0 <= chunk_size -> 0 <= start <= len content ->
  len (window content chunk_size start)
  = Z.min chunk_size (len content - start).
Proof.
  intros Hc Hs. unfold window, len in *.
  rewrite length_take, length_drop. lia.
Qed.

Lemma window_lookup content chunk_size start (i : nat) :
  0 <= start -> Z.of_nat i < chunk_size ->
  window content chunk_size start !! i = content !! (Z.to_nat start + i)%nat.
Proof.
  intros Hs Hi. unfold window.
  rewrite lookup_take_lt by lia. apply lookup_drop.
Qed.

Lemma window_substring content chunk_size start :
  exists pre post,
    content = pre ++ window content chunk_size start ++ post.
Proof.
  exists (take (Z.to_nat start) content),
         (drop (Z.to_nat chunk_size) (drop (Z.to_nat start) content)).
  unfold window. now rewrite !take_drop.
Qed.

(** In a text in normal form every window of two characters or more that
    starts inside the text is kept. *)
Lemma tidy_window_nonblank content chunk_size start :
  tidy content = true -> 2 <= chunk_size -> 0 <= start < len content ->
  nonblank (window content chunk_size start) = true.
Proof.
  intros Ht Hc Hs. rewrite nonblank_has_nonws. apply has_nonws_elem.
  assert (Ht' : tidy_from true content = true).
  { destruct content; [unfold len in Hs; simpl in Hs; lia | exact Ht]. }
  set (i := Z.to_nat start).
  destruct (content !! i) as [c|] eqn:Ec.
  2:{ apply lookup_ge_None in Ec. unfold len in Hs. lia. }
  assert (W0 : window content chunk_size start !! 0%nat = Some c).
  { rewrite window_lookup by lia. now rewrite Nat.add_0_r. }
  destruct (content !! S i) as [d|] eqn:Ed.
  - assert (W1 : window content chunk_size start !! 1%nat = Some d).
    { rewrite window_lookup by lia. fold i. now rewrite Nat.add_1_r. }
    destruct (tidy_from_adjacent _ _ _ _ _ Ht' Ec Ed) as [H|H].
    + exists c. split; [|exact H]. eapply list_elem_of_lookup_2, W0.
    + exists d. split; [|exact H]. eapply list_elem_of_lookup_2, W1.
  - exists c. split; [eapply list_elem_of_lookup_2, W0|].
    apply (tidy_from_last _ _ _ Ht'). rewrite last_lookup.
    apply lookup_ge_None in Ed. apply lookup_lt_Some in Ec as Hlt.
    now replace (pred (length content)) with i by lia.
Qed.

Lemma filter_keeps_all {A} (f : A -> bool) (l : list A) :
  (forall x, x ∈ l -> f x = true) -> List.filter f l = l.
Proof.
  induction l as [|x l IH]; intros H; [reflexivity|]. simpl.
  rewrite (H x) by apply list_elem_of_here.
  f_equal. apply IH. intros y Hy. apply H. now apply list_elem_of_further.
Qed.

Lemma windows_lookup content chunk_size overlap (k : nat) :
  (k < window_count (len content) (chunk_size - overlap))%nat ->
  windows content chunk_size overlap !! k
  = Some (window content chunk_size (Z.of_nat k * (chunk_size - overlap))).
Proof.
  intros Hk. unfold windows, window_starts.
  rewrite !list_lookup_fmap, lookup_seq_lt by exact Hk. reflexivity.
Qed.

Lemma windows_length content chunk_size overlap :
  length (windows content chunk_size overlap)
  = window_count (len content) (chunk_size - overlap).
Proof.
  unfold windows, window_starts. now rewrite !length_fmap, length_seq.
Qed.

Lemma windows_elem content chunk_size overlap w :
  overlap < chunk_size ->
  w ∈ windows content chunk_size overlap ->
  exists start, 0 <= start < len content
                /\ w = window content chunk_size start.
Proof.
  intros Ho Hw. apply list_elem_of_lookup_1 in Hw as [k Hk].
  assert (Hlt : (k < window_count (len content) (chunk_size - overlap))%nat).
  { rewrite <- windows_length. eapply lookup_lt_Some, Hk. }
  rewrite windows_lookup in Hk by exact Hlt. injection Hk as <-.
  exists (Z.of_nat k * (chunk_size - overlap)). split; [|reflexivity].
  apply window_count_spec in Hlt; [nia | apply len_nonneg | lia].
Qed.

Lemma emit_elem path ws chunk p :
  (chunk, p) ∈ emit path ws ->
  p = path /\ chunk ∈ ws /\ nonblank chunk = true.
Proof.
  unfold emit. intros H. apply list_elem_of_fmap in H as (w & [= -> ->] & Hw).
  apply list_elem_of_In, filter_In in Hw as [Hw Hn].
  now rewrite list_elem_of_In.
Qed.

End WindowFacts.

(** ** The chunker: termination, windows, coverage *)

Section Chunker.

(** Whenever the overlap is smaller than the chunk size the loop is left
    after at most one test per character of the text, and one more. *)
Lemma chunk_md_loop_terminates content path chunk_size overlap m :
  overlap < chunk_size ->
  forall fuel (j : nat) chunks,
    (j + m = window_count (len content) (chunk_size - overlap))%nat ->
    (m < fuel)%nat ->
    is_Some (chunk_md_loop fuel content path chunk_size overlap
                           (Z.of_nat j * (chunk_size - overlap)) chunks).
Proof.
  intros Ho. assert (Hn := len_nonneg content).
  induction m as [|m IH]; intros fuel j chunks Hj Hf;
    (destruct fuel as [|fuel]; [lia|]); cbn [chunk_md_loop].
  - destruct (Z.ltb_spec (Z.of_nat j * (chunk_size - overlap)) (len content))
      as [Hlt|_]; [|eauto].
    apply window_count_spec in Hlt; lia.
  - destruct (Z.ltb_spec (Z.of_nat j * (chunk_size - overlap)) (len content))
      as [_|_]; [|eauto].
    replace (Z.of_nat j * (chunk_size - overlap) + chunk_size - overlap)
      with (Z.of_nat (S j) * (chunk_size - overlap)) by lia.
    apply IH; lia.
Qed.

Lemma chunk_md_terminates fuel content path chunk_size overlap :
  overlap < chunk_size ->
  (length (normalize content) < fuel)%nat ->
  is_Some (chunk_md fuel content path chunk_size overlap).
Proof.
  intros Ho Hf. unfold chunk_md.
  assert (Hn := len_nonneg (normalize content)).
  assert (Hle := window_count_le (len (normalize content))
                   (chunk_size - overlap) Hn ltac:(lia)).
  change 0 with (Z.of_nat 0 * (chunk_size - overlap)).
  apply (chunk_md_loop_terminates _ _ _ _
           (window_count (len (normalize content)) (chunk_size - overlap)));
    [lia | lia | unfold len in *; lia].
Qed.

Lemma normalize_repeat_a n : normalize (repeat letter_a n) = repeat letter_a n.
Proof.
  apply tidy_normalize. destruct n as [|n]; [reflexivity|].
  unfold tidy. cbn [repeat]. cbn [tidy_from].
  change (isspace letter_a) with false. cbn iota.
  induction n as [|n IH]; [reflexivity|]. exact IH.
Qed.

(** C3: the chunker cuts the normalized text into windows of [chunk_size]
    characters that start at 0, chunk_size - overlap,
    2 * (chunk_size - overlap), ..., as long as the start is below the
    length of the normalized text, and returns those that are not blank.
    For "a" repeated 2500 times, chunk size 1000 and overlap 200, it
    returns the four windows that start at 0, 800, 1600 and 2400, and the
    last one has 100 characters. *)
Theorem C3_chunk_md_windowing :
  (forall fuel content path chunk_size overlap,
      0 <= chunk_size -> overlap < chunk_size ->
      (length (normalize content) < fuel)%nat ->
      let text := normalize content in
      let step := chunk_size - overlap in
      exists n : nat,
        (forall k : nat, (k < n)%nat <-> Z.of_nat k * step < len text)
        /\ chunk_md fuel content path chunk_size overlap
           = Some (emit path
                     ((fun k : nat => window text chunk_size (Z.of_nat k * step))
                        <$> seq 0 n)))
  /\ (forall fuel path,
        (5 <= fuel)%nat ->
        let text := repeat letter_a 2500 in
        normalize text = text
        /\ chunk_md fuel text path 1000 200
           = Some [ (window text 1000 0, path); (window text 1000 800, path);
                    (window text 1000 1600, path);
                    (window text 1000 2400, path) ]
        /\ len (window text 1000 2400) = 100).
Proof.
  split.
  - intros fuel content path chunk_size overlap Hc Ho Hf text step.
    exists (window_count (len text) step). split.
    + intros k. apply window_count_spec; [apply len_nonneg | unfold step; lia].
    + unfold text, step. rewrite chunk_md_closed by assumption.
      unfold windows, window_starts. now rewrite <- list_fmap_compose.
  - intros fuel path Hf text. subst text.
    split; [apply normalize_repeat_a|].
    split; [|vm_compute; reflexivity].
    unfold chunk_md. rewrite normalize_repeat_a.
    apply (chunk_md_loop_mono 5); [|exact Hf].
    vm_compute. reflexivity.
Qed.

Lemma C3_chunk_md_windowing_witness :
  let text := normalize sample_text in
  exists n : nat,
    (forall k : nat, (k < n)%nat <-> Z.of_nat k * (5 - 2) < len text)
    /\ chunk_md 17 sample_text sample_path 5 2
       = Some (emit sample_path
                 ((fun k : nat => window text 5 (Z.of_nat k * (5 - 2)))
                    <$> seq 0 n)).
Proof.
  apply (proj1 C3_chunk_md_windowing 17%nat sample_text sample_path 5 2);
    [lia | lia | vm_compute; lia].
Defined.

(** C10: for a chunk size of at least 1 and a smaller overlap, the chunker
    returns, and every chunk it returns is a contiguous piece of the
    normalized text, has between 1 and [chunk_size] characters, and has a
    character that is not whitespace. *)
Theorem C10_chunks_wellformed fuel content path chunk_size overlap :
  1 <= chunk_size -> overlap < chunk_size ->
  (length (normalize content) < fuel)%nat ->
  exists chunks,
    chunk_md fuel content path chunk_size overlap = Some chunks
    /\ forall chunk p,
         (chunk, p) ∈ chunks ->
         (exists pre post, normalize content = pre ++ chunk ++ post)
         /\ 1 <= len chunk <= chunk_size
         /\ (exists c, c ∈ chunk /\ isspace c = false).
Proof.
  intros Hc Ho Hf. eexists. split; [apply chunk_md_closed; lia|].
  intros chunk p Hin. apply emit_elem in Hin as (_ & Hw & Hnb).
  apply windows_elem in Hw as (start & Hs & ->); [|exact Ho].
  split; [apply window_substring|]. split.
  - rewrite window_length by lia. lia.
  - apply has_nonws_elem. now rewrite <- nonblank_has_nonws.
Qed.

Lemma C10_chunks_wellformed_witness :
  exists chunks,
    chunk_md 17 sample_text sample_path 5 2 = Some chunks
    /\ forall chunk p,
         (chunk, p) ∈ chunks ->
         (exists pre post, normalize sample_text = pre ++ chunk ++ post)
         /\ 1 <= len chunk <= 5
         /\ (exists c, c ∈ chunk /\ isspace c = false).
Proof.
  apply (C10_chunks_wellformed 17%nat sample_text sample_path 5 2);
    [lia | lia | vm_compute; lia].
Defined.

(** C5: the chunker starts by normalizing the text: it joins the words
    of the text with single spaces, which leaves no whitespace at the
    ends.  Two texts have the same normal form exactly when they have
    the same words in the same order, and two such texts give the same
    chunks for every chunk size and overlap; chunking the normal form
    itself gives these chunks again. *)
Theorem C5_whitespace_layout content1 content2 :
  normalize content1 = normalize content2 ->
  split_ws content1 = split_ws content2
  /\ normalize content1 = join_space (split_ws content1)
  /\ tidy (normalize content1) = true
  /\ forall fuel path chunk_size overlap,
       chunk_md fuel content1 path chunk_size overlap
       = chunk_md fuel content2 path chunk_size overlap
       /\ chunk_md fuel (normalize content1) path chunk_size overlap
          = chunk_md fuel content1 path chunk_size overlap.
Proof.
  intros H.
  split; [now apply normalize_eq_iff_words|].
  split; [apply normalize_join_split|].
  split; [apply normalize_tidy|].
  intros fuel path chunk_size overlap. unfold chunk_md.
  rewrite normalize_idem, H. split; reflexivity.
Qed.

Lemma C5_whitespace_layout_witness :
  normalize sample_text = sample_text_flat
  /\ split_ws sample_text = [str_of "alpha"; str_of "beta"; str_of "gamma"]
  /\ chunk_md 17 sample_text sample_path 5 2
     = chunk_md 17 sample_text_flat sample_path 5 2.
Proof.
  split; [vm_compute; reflexivity|]. split; [vm_compute; reflexivity|].
  apply (fun H => proj1 (proj2 (proj2 (proj2
           (C5_whitespace_layout sample_text sample_text_flat H)))
           17%nat sample_path 5 2)).
  vm_compute. reflexivity.
Defined.

(** With two characters or more per window, no window of a normalized
    text is dropped. *)
Lemma windows_all_nonblank content chunk_size overlap :
  2 <= chunk_size -> overlap < chunk_size ->
  List.filter nonblank (windows (normalize content) chunk_size overlap)
  = windows (normalize content) chunk_size overlap.
Proof.
  intros Hc Ho. apply filter_keeps_all. intros w Hw.
  apply windows_elem in Hw as (start & Hs & ->); [|exact Ho].
  apply tidy_window_nonblank; [apply normalize_tidy | exact Hc | exact Hs].
Qed.

(** C4 (amended): for an overlap between 0 and the chunk size, the
    windows that the chunker takes at the offsets 0, step, 2 * step, ...
    with step = chunk_size - overlap reach every position of the
    normalized text; when that text is not empty the first window starts
    at offset 0 and the last one ends at the length of the text.  The
    chunks returned are these windows, in order, without the blank ones,
    and with a chunk size of at least 2 no window is blank. *)
Theorem C4_windows_cover fuel content path chunk_size overlap :
  0 <= overlap < chunk_size ->
  (length (normalize content) < fuel)%nat ->
  let text := normalize content in
  let step := chunk_size - overlap in
  exists ws : list str,
    (forall (k : nat) w,
        ws !! k = Some w -> w = window text chunk_size (Z.of_nat k * step))
    /\ covers ws step text
    /\ (text <> [] ->
        head ws = Some (window text chunk_size 0)
        /\ ends_at ws step (len text))
    /\ chunk_md fuel content path chunk_size overlap
       = Some ((fun w => (w, path)) <$> List.filter nonblank ws)
    /\ (2 <= chunk_size -> List.filter nonblank ws = ws).
Proof.
  intros Ho Hf text step.
  assert (Hn := len_nonneg text).
  exists (windows text chunk_size overlap).
  assert (Hlook : forall k : nat,
             (k < window_count (len text) step)%nat ->
             windows text chunk_size overlap !! k
             = Some (window text chunk_size (Z.of_nat k * step))).
  { intros k Hk. now apply windows_lookup. }
  assert (Hcount : forall k : nat,
             (k < window_count (len text) step)%nat
             <-> Z.of_nat k * step < len text).
  { intros k. apply window_count_spec; unfold step; lia. }
  assert (Hwl := windows_length text chunk_size overlap). fold step in Hwl.
  split; [|split; [|split; [|split]]].
  - intros k c Hk.
    assert (Hlt : (k < window_count (len text) step)%nat).
    { rewrite <- Hwl. eapply lookup_lt_Some, Hk. }
    rewrite Hlook in Hk by exact Hlt. now injection Hk as <-.
  - intros pos Hpos.
    assert (Hs : 0 < step) by (unfold step; lia).
    assert (Hq : 0 <= pos / step) by (apply Z.div_pos; lia).
    assert (Hlo : step * (pos / step) <= pos) by (apply Z.mul_div_le; lia).
    assert (Hhi : pos < step * Z.succ (pos / step))
      by (apply Z.mul_succ_div_gt; lia).
    exists (Z.to_nat (pos / step)), (window text chunk_size
                                       (Z.of_nat (Z.to_nat (pos / step)) * step)).
    split.
    + apply Hlook, Hcount. rewrite Z2Nat.id by lia. nia.
    + rewrite Z2Nat.id by lia. rewrite window_length by nia.
      unfold step in *. nia.
  - intros Hne.
    assert (Hpos : (0 < window_count (len text) step)%nat).
    { apply Hcount. destruct text; [contradiction|].
      unfold len in *. simpl. lia. }
    split.
    + rewrite head_lookup, Hlook by exact Hpos. reflexivity.
    + set (n := window_count (len text) step) in *.
      exists (window text chunk_size (Z.of_nat (pred n) * step)). split.
      * rewrite last_lookup, Hwl. apply Hlook. lia.
      * assert (Hlt : Z.of_nat (pred n) * step < len text)
          by (apply Hcount; lia).
        assert (Hge : ~ Z.of_nat n * step < len text)
          by (rewrite <- Hcount; lia).
        unfold len at 1. rewrite Hwl.
        rewrite window_length by nia.
        replace (Z.of_nat n) with (Z.of_nat (pred n) + 1) in * by lia.
        unfold step in *. nia.
  - apply chunk_md_closed; [lia | lia | exact Hf].
  - intros Hc. apply windows_all_nonblank; lia.
Qed.

Lemma C4_windows_cover_witness :
  let text := normalize sample_text in
  exists ws : list str,
    (forall (k : nat) w,
        ws !! k = Some w -> w = window text 5 (Z.of_nat k * (5 - 2)))
    /\ covers ws (5 - 2) text
    /\ (text <> [] ->
        head ws = Some (window text 5 0) /\ ends_at ws (5 - 2) (len text))
    /\ chunk_md 17 sample_text sample_path 5 2
       = Some ((fun w => (w, sample_path)) <$> List.filter nonblank ws)
    /\ (2 <= 5 -> List.filter nonblank ws = ws).
Proof.
  apply (C4_windows_cover 17%nat sample_text sample_path 5 2);
    [lia | vm_compute; lia].
Defined.

(** C4 as stated fails: with chunk size 1 and overlap 0 the window that
    holds the space of "a b" is dropped, and the two chunks returned,
    laid at the offsets 0 and 1, do not reach position 2; wherever they
    are laid, their two characters cannot reach the three positions of
    the text. *)
Lemma C4_counterexample :
  chunk_md 4 (str_of "a b") sample_path 1 0
  = Some [ (str_of "a", sample_path); (str_of "b", sample_path) ]
  /\ len (concat [str_of "a"; str_of "b"]) < len (normalize (str_of "a b"))
  /\ ~ covers [str_of "a"; str_of "b"] (1 - 0) (normalize (str_of "a b")).
Proof.
  split; [vm_compute; reflexivity|]. split; [vm_compute; reflexivity|].
  intros H.
  unfold covers, covered_at in H.
  assert (Hpos : 0 <= 2 < len (normalize (str_of "a b")))
    by (vm_compute; split; [discriminate | reflexivity]).
  destruct (H 2 Hpos) as (k & c & Hk & Hr).
  destruct k as [|[|k]]; simpl in Hk; try discriminate;
    injection Hk as <-; unfold len in Hr; simpl in Hr; lia.
Qed.

End Chunker.

(** ** The indexer *)

Section Indexer.

Lemma foldl_insert_union (l : list (str * entry)) (c : gmap str entry) :
  foldl (fun c '(i, dm) => <[i := dm]> c) c l
  = foldl (fun c '(i, dm) => <[i := dm]> c) ∅ l ∪ c.
Proof.
  revert c. induction l as [|[i dm] l IH]; intros c; simpl.
  - now rewrite (left_id ∅ (∪)).
  - rewrite IH, (IH (<[i:=dm]> ∅)), <- (assoc (∪)).
    f_equal. now rewrite <- insert_union_l, (left_id ∅ (∪)).
Qed.

(** Writing the same batch a second time changes nothing. *)
Lemma upsert_idempotent (ds : list str) (ms : list (gmap str str))
    (ks : list str) (coll : gmap str entry) :
  upsert ds ms ks (upsert ds ms ks coll) = upsert ds ms ks coll.
Proof.
  unfold upsert.
  rewrite (foldl_insert_union _ (foldl _ coll _)), (foldl_insert_union _ coll).
  now rewrite (assoc (∪)), (idemp (∪)).
Qed.

Lemma index_files_total fuel files :
  fuel_covers fuel files ->
  forall b, is_Some (index_files fuel b files).
Proof.
  induction files as [|md files IH]; intros Hf b; [now eexists|].
  cbn [index_files]. unfold index_file.
  assert (Hrest : fuel_covers fuel files).
  { intros md' text Hin. apply Hf. now apply list_elem_of_further. }
  destruct (md_read md) as [text|e] eqn:E; [|now apply IH].
  destruct (chunk_md_terminates fuel text (md_rel md)
              default_chunk_size default_overlap) as [chunks Hc].
  - reflexivity.
  - apply (Hf md text); [apply list_elem_of_here | exact E].
  - rewrite Hc. now apply IH.
Qed.

Lemma index_files_no_chunk fuel files :
  (0 < fuel)%nat -> Forall gives_no_chunk files ->
  forall b, exists b',
    index_files fuel b files = Some b'
    /\ docs b' = docs b /\ metas b' = metas b /\ ids b' = ids b.
Proof.
  intros Hfuel. induction 1 as [|md files Hmd _ IH]; intros b;
    [now exists b|].
  cbn [index_files]. unfold index_file, gives_no_chunk in *.
  destruct (md_read md) as [text|e].
  - unfold chunk_md. rewrite Hmd.
    destruct fuel as [|fuel]; [lia|]. cbn [chunk_md_loop foldl].
    change (0 <? len []) with false. cbn iota. apply IH.
  - destruct (IH {| docs := docs b; metas := metas b; ids := ids b;
                    idx := idx b;
                    skipped := skipped b
                      ++ [str_of "Skip " ++ md_path md ++ str_of ": " ++ e] |})
      as (b' & E & H1 & H2 & H3).
    now exists b'.
Qed.

Lemma foldl_append_chunk_numbered rel chunks b :
  length (ids b) = idx b ->
  (forall k id, ids b !! k = Some id ->
     exists r, id = r ++ str_of ":" ++ str_of (pretty k)) ->
  let b' := foldl (append_chunk rel) b chunks in
  length (ids b') = idx b'
  /\ forall k id, ids b' !! k = Some id ->
       exists r, id = r ++ str_of ":" ++ str_of (pretty k).
Proof.
  revert b. induction chunks as [|[chunk p] chunks IH]; intros b Hlen Hids;
    [now split|].
  cbn [foldl]. apply IH; cbn [append_chunk ids idx].
  - rewrite length_app. simpl. lia.
  - intros k id Hk. apply lookup_app_Some in Hk as [Hk|[Hge Hk]];
      [now apply Hids|].
    apply list_lookup_singleton_Some in Hk as [Hk <-].
    exists rel. now replace k with (idx b) by lia.
Qed.

(** The number in the [k]-th id of the batch is [k], whichever file the
    chunk comes from. *)
Lemma index_files_ids_numbered fuel files b b' :
  index_files fuel b files = Some b' ->
  length (ids b) = idx b ->
  (forall k id, ids b !! k = Some id ->
     exists r, id = r ++ str_of ":" ++ str_of (pretty k)) ->
  length (ids b') = idx b'
  /\ forall k id, ids b' !! k = Some id ->
       exists r, id = r ++ str_of ":" ++ str_of (pretty k).
Proof.
  revert b. induction files as [|md files IH]; intros b H Hlen Hids.
  - injection H as <-. now split.
  - cbn [index_files] in H. unfold index_file in H.
    destruct (md_read md) as [text|e].
    + destruct (chunk_md fuel text (md_rel md) default_chunk_size
                         default_overlap) as [chunks|]; [|discriminate].
      destruct (foldl_append_chunk_numbered (md_rel md) chunks b Hlen Hids)
        as [H1 H2].
      exact (IH _ H H1 H2).
    + exact (IH _ H Hlen Hids).
Qed.

(** C6 (amended): the chunker does not check the overlap against the
    chunk size.  Called with an overlap that is not smaller than the chunk
    size, it enters its loop: on a text whose normal form is empty it
    returns no chunk at the first test, and on any other text no amount of
    fuel lets it return.  The indexer calls the chunker with the defaults
    1000 and 200 only, and its chunking of any listing returns. *)
Theorem C6_overlap_not_checked :
  (forall content path chunk_size overlap,
      chunk_size <= overlap ->
      (normalize content = [] ->
       forall fuel, (0 < fuel)%nat ->
         chunk_md fuel content path chunk_size overlap = Some [])
      /\ (normalize content <> [] ->
          forall fuel, chunk_md fuel content path chunk_size overlap = None))
  /\ (forall fuel files b,
        fuel_covers fuel files -> is_Some (index_files fuel b files)).
Proof.
  split.
  - intros content path chunk_size overlap Hco. split.
    + intros He fuel Hf. unfold chunk_md. rewrite He.
      destruct fuel as [|fuel]; [lia|]. reflexivity.
    + intros Hne fuel. unfold chunk_md.
      apply chunk_md_loop_stuck; [exact Hco | exact Hne | lia].
  - intros fuel files b Hf. now apply index_files_total.
Qed.

Lemma C6_overlap_not_checked_witness :
  chunk_md 1000 (str_of "a") sample_path 1 1 = None.
Proof.
  apply (fun H => proj2 (proj1 C6_overlap_not_checked
                           (str_of "a") sample_path 1 1 H)).
  - lia.
  - vm_compute. discriminate.
Defined.

(** C6 as stated fails: with chunk size 1 and overlap 1 the text "a" is
    not rejected; the loop is entered and no number of iterations ends
    it. *)
Lemma C6_counterexample :
  ~ (exists fuel chunks,
        chunk_md fuel (str_of "a") sample_path 1 1 = Some chunks).
Proof.
  intros (fuel & chunks & H). unfold chunk_md in H.
  rewrite chunk_md_loop_stuck in H; [discriminate | lia | | lia].
  vm_compute. discriminate.
Qed.

(** C1 (evaluation): the number after the colon is a counter that runs
    over the whole batch.  With two notes of one chunk each, the second
    one enumerated gets the number 1, and which note that is depends on
    the order of the enumeration. *)
Theorem C1_ids_follow_enumeration :
  ids <$> index_files 2 empty_batch [file_a; file_b]
  = Some [str_of "a.md:0"; str_of "b.md:1"]
  /\ ids <$> index_files 2 empty_batch [file_b; file_a]
     = Some [str_of "b.md:0"; str_of "a.md:1"].
Proof. split; vm_compute; reflexivity. Qed.

(** C2: when the fuel covers the chunking of every file, a run returns;
    a second run over the same listing hands the same documents,
    metadata and ids to the store, and leaves the collection, and so
    the number of its entries, as the first run left it. *)
Theorem C2_reindex_idempotent (fuel : nat) (fs : vault_fs)
    (coll : gmap str entry) :
  fuel_covers fuel (vault_rglob fs) ->
  exists r1 r2,
    index_vault fuel fs coll = Some r1
    /\ index_vault fuel fs (collection r1) = Some r2
    /\ upsert_calls r2 = upsert_calls r1
    /\ collection r2 = collection r1
    /\ size (collection r2) = size (collection r1).
Proof.
  intros Hf. unfold index_vault.
  destruct (vault_exists fs); cbn [negb].
  2:{ do 2 eexists. repeat split. }
  destruct (index_files_total fuel (vault_rglob fs) Hf empty_batch)
    as [b Hb].
  rewrite Hb. destruct (truthy (docs b)); cbn [negb].
  - do 2 eexists. split; [reflexivity|]. split; [reflexivity|].
    cbn [upsert_calls collection]. rewrite upsert_idempotent. auto.
  - do 2 eexists. repeat split.
Qed.

Lemma C2_reindex_idempotent_witness :
  exists r1 r2,
    index_vault 6 (sample_vault [file_a; file_locked; file_b]) ∅ = Some r1
    /\ index_vault 6 (sample_vault [file_a; file_locked; file_b])
                   (collection r1) = Some r2
    /\ upsert_calls r2 = upsert_calls r1
    /\ collection r2 = collection r1
    /\ size (collection r2) = size (collection r1).
Proof.
  apply (C2_reindex_idempotent 6%nat
           (sample_vault [file_a; file_locked; file_b]) ∅).
  intros md text Hin Hread. cbn [sample_vault vault_rglob] in Hin.
  apply elem_of_cons in Hin as [->|Hin];
    [injection Hread as <-; vm_compute; lia|].
  apply elem_of_cons in Hin as [->|Hin]; [discriminate Hread|].
  apply elem_of_cons in Hin as [->|Hin];
    [injection Hread as <-; vm_compute; lia|].
  now apply not_elem_of_nil in Hin.
Defined.

(** C9 (amended): when the vault root exists and every markdown file
    found cannot be read or is empty once normalized (in particular when
    none is found), the run calls no upsert, leaves the collection as it
    was, prints "No documents to index." and returns 0.  When the vault
    root does not exist, the run says so on standard error and
    returns 1. *)
Theorem C9_empty_vault_is_success (fuel : nat) (fs : vault_fs)
    (coll : gmap str entry) :
  (vault_exists fs = true ->
   (0 < fuel)%nat ->
   Forall gives_no_chunk (vault_rglob fs) ->
   exists r,
     index_vault fuel fs coll = Some r
     /\ exit_code r = 0
     /\ stdout r = [str_of "No documents to index."]
     /\ upsert_calls r = []
     /\ collection r = coll)
  /\ (vault_exists fs = false ->
      index_vault fuel fs coll
      = Some {| exit_code := 1; stdout := [];
                stderr := [str_of "Vault path does not exist: "
                             ++ vault_path fs];
                upsert_calls := []; collection := coll |}).
Proof.
  split.
  - intros He Hfuel Hall. unfold index_vault. rewrite He. cbn [negb].
    destruct (index_files_no_chunk fuel (vault_rglob fs) Hfuel Hall
                empty_batch) as (b & Hb & Hd & _ & _).
    rewrite Hb, Hd. cbn. eexists. repeat split.
  - intros He. unfold index_vault. now rewrite He.
Qed.

Lemma C9_empty_vault_is_success_witness :
  exists r,
    index_vault 1 (sample_vault [file_locked; file_blank]) ∅ = Some r
    /\ exit_code r = 0
    /\ stdout r = [str_of "No documents to index."]
    /\ upsert_calls r = []
    /\ collection r = ∅.
Proof.
  apply (proj1 (C9_empty_vault_is_success 1%nat
                  (sample_vault [file_locked; file_blank]) ∅)).
  - reflexivity.
  - lia.
  - repeat constructor.
Defined.

(** C9 as stated fails: when the vault root does not exist no markdown
    file is found, and the run returns 1. *)
Lemma C9_counterexample :
  vault_rglob missing_vault = []
  /\ exit_code <$> index_vault 1 missing_vault ∅ = Some 1
  /\ ~ (exists r, index_vault 1 missing_vault ∅ = Some r /\ exit_code r = 0).
Proof.
  split; [reflexivity|]. split; [reflexivity|].
  intros (r & Hr & H0). vm_compute in Hr. injection Hr as <-.
  discriminate H0.
Qed.

End Indexer.

(** ** The query printer *)

Section Query.

Lemma excerpt_of_short (doc : str) : len doc <= 500 -> excerpt_of doc = doc.
Proof.
  intros H. unfold excerpt_of. destruct (Z.ltb_spec 500 (len doc)); [lia|].
  reflexivity.
Qed.

Lemma excerpt_of_long (doc : str) :
  500 < len doc -> excerpt_of doc = take 500 doc ++ str_of "...".
Proof.
  intros H. unfold excerpt_of. destruct (Z.ltb_spec 500 (len doc)); [|lia].
  f_equal. unfold py_slice, slice_bound.
  change (0 <? 0) with false. change (500 <? 0) with false. cbn iota.
  assert (Hn := len_nonneg doc).
  rewrite Z.min_l, Z.min_l by lia. reflexivity.
Qed.

Lemma excerpt_of_bounded (doc : str) : len (excerpt_of doc) <= 503.
Proof.
  destruct (Z.le_gt_cases (len doc) 500) as [H|H].
  - rewrite excerpt_of_short by exact H. lia.
  - rewrite excerpt_of_long by lia. unfold len in *.
    rewrite length_app, length_take. change (length (str_of "...")) with 3%nat.
    lia.
Qed.

(** The loop over documents that all come with a metadata dictionary
    prints the three lines of each, numbered from [length pre + 1]. *)
Lemma query_loop_all (results : query_result) (dm pre post : list (str * gmap str str))
    more_metas out :
  metadatas results = Some ((Some <$> (pre ++ dm ++ post).*2) :: more_metas) ->
  query_loop results (length pre) dm.*1 out
  = (out ++ concat (imap (fun i '(doc, meta) =>
                            result_lines (length pre + i) (source_of meta)
                                         (excerpt_of doc)) dm),
     None).
Proof.
  revert pre out. induction dm as [|[doc meta] dm IH]; intros pre out Hm.
  - simpl. now rewrite app_nil_r.
  - cbn [fmap list_fmap fst query_loop]. unfold meta_at. rewrite Hm.
    rewrite !list_lookup_fmap.
    change (((doc, meta) :: dm) ++ post) with ((doc, meta) :: dm ++ post).
    rewrite (list_lookup_middle pre (dm ++ post) (doc, meta) (length pre) eq_refl).
    cbn [fmap option_fmap option_map snd].
    replace (S (length pre)) with (length (pre ++ [(doc, meta)]))
      by (rewrite length_app; simpl; lia).
    rewrite IH by (now rewrite <- app_assoc).
    rewrite imap_cons. cbn [concat]. rewrite Nat.add_0_r, app_assoc.
    do 3 f_equal. apply imap_ext. intros i [d m] _.
    rewrite length_app. cbn [length compose].
    now replace (length pre + 1 + i)%nat with (length pre + S i)%nat by lia.
Qed.

(** C7: when the query call of the store raises, [query] prints nothing
    on standard output, writes "Query error: ..." to standard error and
    exits with status 1, which is not the outcome of an empty result;
    when the store returns no document, [query] prints
    "No relevant results found." and the status is 0. *)
Theorem C7_query_error_vs_no_results
    (collection_query : str -> Z -> query_reply) (text : str) (n : Z) :
  (forall e,
      collection_query text n = QueryRaises e ->
      query collection_query text n
      = {| printed := []; errors := [str_of "Query error: " ++ e];
           sys_exit := Some 1 |}
      /\ exit_status (query collection_query text n) <> 0
      /\ query collection_query text n <> no_results)
  /\ (forall results,
        collection_query text n = QueryReturns results ->
        zero_documents results = true ->
        query collection_query text n
        = {| printed := [str_of "No relevant results found."]; errors := [];
             sys_exit := None |}
        /\ exit_status (query collection_query text n) = 0).
Proof.
  split.
  - intros e He. unfold query. rewrite He. repeat split; discriminate.
  - intros results Hr Hz. unfold query, zero_documents in *. rewrite Hr.
    destruct (documents results) as [[|docs0 rest]|]; try (now split).
    rewrite Hz. now split.
Qed.

Lemma C7_query_error_vs_no_results_witness :
  (query failing_store (str_of "capital of France") 5
   = {| printed := []; errors := [str_of "Query error: timed out"];
        sys_exit := Some 1 |}
   /\ exit_status (query failing_store (str_of "capital of France") 5) <> 0
   /\ query failing_store (str_of "capital of France") 5 <> no_results)
  /\ (query empty_store (str_of "capital of France") 5
      = {| printed := [str_of "No relevant results found."]; errors := [];
           sys_exit := None |}
      /\ exit_status (query empty_store (str_of "capital of France") 5) = 0).
Proof.
  split.
  - apply (proj1 (C7_query_error_vs_no_results failing_store
                    (str_of "capital of France") 5) (str_of "timed out")).
    reflexivity.
  - apply (proj2 (C7_query_error_vs_no_results empty_store
                    (str_of "capital of France") 5)
             {| documents := Some [[]]; metadatas := Some [[]] |});
      reflexivity.
Defined.

(** Without metadata in the reply every document gets the empty
    dictionary. *)
Lemma query_loop_no_meta (results : query_result) (ds : list str) (i : nat) out :
  metadatas results = None \/ metadatas results = Some [] ->
  query_loop results i ds out
  = (out ++ concat (imap (fun j doc =>
                            result_lines (i + j) (str_of "unknown")
                                         (excerpt_of doc)) ds),
     None).
Proof.
  intros Hm. revert i out. induction ds as [|doc ds IH]; intros i out.
  - simpl. now rewrite app_nil_r.
  - cbn [query_loop]. unfold meta_at.
    assert (E : match metadatas results with
                | None | Some [] => inr (Some (∅ : gmap str str))
                | Some (metas0 :: _) =>
                    match metas0 !! i with
                    | Some meta => inr meta
                    | None => inl (str_of "list index out of range")
                    end
                end = (inr (Some ∅) : str + option (gmap str str))).
    { destruct Hm as [-> | ->]; reflexivity. }
    rewrite E, IH, imap_cons. cbn [concat].
    rewrite Nat.add_0_r, app_assoc.
    do 3 f_equal. apply imap_ext. intros j d _. cbn [compose].
    now replace (S i + j)%nat with (i + S j)%nat by lia.
Qed.

(** C8 (amended): for the documents of a reply, [query] prints for each,
    in order, a header with its rank and source, its excerpt and an empty
    line.  The excerpt is the whole text when it has 500 characters or
    fewer, and otherwise its first 500 characters followed by "..." (at
    most 503 characters); the source is the metadata's [path], else its
    [source], else "unknown", and it is "unknown" when the reply has no
    metadata. *)
Theorem C8_query_prints_excerpt_and_source
    (collection_query : str -> Z -> query_reply) (text : str) (n : Z) :
  (forall (dm : list (str * gmap str str)) more_docs more_metas,
      dm <> [] ->
      collection_query text n = reply_of dm more_docs more_metas ->
      query collection_query text n
      = {| printed := concat (imap (fun i '(doc, meta) =>
                                      result_lines i (source_of meta)
                                                   (excerpt_of doc)) dm);
           errors := []; sys_exit := None |})
  /\ (forall (docs0 : list str) more_docs metas,
        docs0 <> [] ->
        metas = None \/ metas = Some [] ->
        collection_query text n
        = QueryReturns {| documents := Some (docs0 :: more_docs);
                          metadatas := metas |} ->
        query collection_query text n
        = {| printed := concat (imap (fun i doc =>
                                        result_lines i (str_of "unknown")
                                                     (excerpt_of doc)) docs0);
             errors := []; sys_exit := None |})
  /\ (forall doc : str,
        (len doc <= 500 -> excerpt_of doc = doc)
        /\ (500 < len doc -> excerpt_of doc = take 500 doc ++ str_of "...")
        /\ len (excerpt_of doc) <= 503)
  /\ (forall meta : gmap str str,
        (forall p, meta !! str_of "path" = Some p -> source_of meta = p)
        /\ (forall s, meta !! str_of "path" = None ->
                      meta !! str_of "source" = Some s -> source_of meta = s)
        /\ (meta !! str_of "path" = None -> meta !! str_of "source" = None ->
            source_of meta = str_of "unknown")).
Proof.
  split; [|split; [|split]].
  - intros dm more_docs more_metas Hne Hr.
    unfold query. rewrite Hr. unfold reply_of. cbn [documents].
    destruct dm as [|x dm]; [contradiction|].
    cbn [fmap list_fmap truthy negb].
    change (x.1 :: list_fmap _ _ fst dm) with ((x :: dm).*1).
    rewrite (query_loop_all _ (x :: dm) [] [] more_metas []).
    + reflexivity.
    + cbn [metadatas app]. now rewrite app_nil_r.
  - intros docs0 more_docs metas Hne Hm Hr.
    unfold query. rewrite Hr. cbn [documents].
    destruct docs0 as [|d docs0]; [contradiction|]. cbn [truthy negb].
    rewrite query_loop_no_meta by exact Hm. reflexivity.
  - intros doc. split; [apply excerpt_of_short|].
    split; [apply excerpt_of_long | apply excerpt_of_bounded].
  - intros meta. unfold source_of. split; [|split].
    + intros p ->. reflexivity.
    + intros s -> ->. reflexivity.
    + intros -> ->. reflexivity.
Qed.

Lemma C8_query_prints_excerpt_and_source_witness :
  printed (query long_doc_store (str_of "capital of France") 5)
  = [ str_of "--- Result 1 (Source: notes/today.md) ---";
      take 500 long_doc ++ str_of "...";
      [] ].
Proof.
  rewrite (proj1 (C8_query_prints_excerpt_and_source long_doc_store
                    (str_of "capital of France") 5)
             [(long_doc, {[ str_of "path" := sample_path ]})] [] []
             ltac:(discriminate) eq_refl).
  vm_compute. reflexivity.
Defined.

(** C8 as stated fails: for a document of 501 characters the excerpt
    printed is its first 500 characters followed by "...", which is not
    a prefix of the document. *)
Lemma C8_counterexample :
  printed (query long_doc_store (str_of "capital of France") 5) !! 1%nat
  = Some (take 500 long_doc ++ str_of "...")
  /\ ~ (take 500 long_doc ++ str_of "...") `prefix_of` long_doc.
Proof.
  split; [vm_compute; reflexivity|].
  intros [k Hk]. apply (f_equal length) in Hk.
  rewrite !length_app, length_take in Hk. unfold long_doc in Hk.
  rewrite repeat_length in Hk. change (length (str_of "...")) with 3%nat in Hk.
  lia.
Qed.

End Query.

(** ** More on the chunker: count, overlap, reassembly *)

Section ChunkerMore.

Lemma emit_length_all path ws :
  List.filter nonblank ws = ws -> length (emit path ws) = length ws.
Proof. intros H. unfold emit. now rewrite length_fmap, H. Qed.

Lemma emit_lookup_all path ws (k : nat) c p :
  List.filter nonblank ws = ws ->
  emit path ws !! k = Some (c, p) -> ws !! k = Some c /\ p = path.
Proof.
  intros H. unfold emit. rewrite H, list_lookup_fmap.
  destruct (ws !! k); simpl; [|discriminate]. now intros [= -> ->].
Qed.

Lemma emit_texts path ws : (emit path ws).*1 = List.filter nonblank ws.
Proof.
  unfold emit. rewrite <- list_fmap_compose.
  induction (List.filter nonblank ws) as [|w l IH]; [reflexivity|].
  rewrite fmap_cons. f_equal. exact IH.
Qed.

(** X1: with a chunk size of at least 2 and a smaller overlap, the number
    of chunks is the length of the normalized text divided by the step
    chunk_size - overlap, rounded up. *)
Theorem chunk_md_chunk_count fuel content path chunk_size overlap :
  2 <= chunk_size -> overlap < chunk_size ->
  (length (normalize content) < fuel)%nat ->
  exists chunks,
    chunk_md fuel content path chunk_size overlap = Some chunks
    /\ len chunks
       = (len (normalize content) + (chunk_size - overlap) - 1)
           / (chunk_size - overlap).
Proof.
  intros Hc Ho Hf. eexists. split; [apply chunk_md_closed; lia|].
  unfold len at 1.
  rewrite emit_length_all by (apply windows_all_nonblank; lia).
  rewrite windows_length. unfold window_count.
  assert (Hn := len_nonneg (normalize content)).
  rewrite Z2Nat.id; [reflexivity|]. apply Z.div_pos; lia.
Qed.

Lemma chunk_md_chunk_count_witness :
  exists chunks,
    chunk_md 17 sample_text sample_path 5 2 = Some chunks
    /\ len chunks = (len (normalize sample_text) + (5 - 2) - 1) / (5 - 2).
Proof.
  apply (chunk_md_chunk_count 17%nat sample_text sample_path 5 2);
    [lia | lia | vm_compute; lia].
Defined.

(** X2: with a chunk size of at least 2 and an overlap between 0 and the
    chunk size, what is left of a chunk after its first
    chunk_size - overlap characters is the beginning of the next chunk:
    its first [overlap] characters. *)
Theorem chunk_md_consecutive_overlap fuel content path chunk_size overlap :
  2 <= chunk_size -> 0 <= overlap < chunk_size ->
  (length (normalize content) < fuel)%nat ->
  exists chunks,
    chunk_md fuel content path chunk_size overlap = Some chunks
    /\ forall (k : nat) c c',
         chunks.*1 !! k = Some c -> chunks.*1 !! S k = Some c' ->
         drop (Z.to_nat (chunk_size - overlap)) c
         = take (Z.to_nat overlap) c'.
Proof.
  intros Hc Ho Hf. eexists. split; [apply chunk_md_closed; lia|].
  intros k c c'. rewrite emit_texts, windows_all_nonblank by lia.
  intros Hk Hk'.
  assert (Hlt : (S k < window_count (len (normalize content))
                                    (chunk_size - overlap))%nat).
  { rewrite <- windows_length. eapply lookup_lt_Some, Hk'. }
  rewrite windows_lookup in Hk by lia. rewrite windows_lookup in Hk' by lia.
  injection Hk as <-. injection Hk' as <-. unfold window.
  set (step := chunk_size - overlap).
  replace (Z.of_nat (S k) * step) with (Z.of_nat k * step + step) by lia.
  rewrite Z2Nat.inj_add by (unfold step; nia).
  rewrite take_take, <- drop_drop.
  replace (Z.to_nat overlap `min` Z.to_nat chunk_size)%nat
    with (Z.to_nat overlap) by lia.
  rewrite (take_drop_commute _ (Z.to_nat overlap) (Z.to_nat step)).
  do 2 f_equal. unfold step. lia.
Qed.

Lemma chunk_md_consecutive_overlap_witness :
  exists chunks,
    chunk_md 17 sample_text sample_path 5 2 = Some chunks
    /\ forall (k : nat) c c',
         chunks.*1 !! k = Some c -> chunks.*1 !! S k = Some c' ->
         drop (Z.to_nat (5 - 2)) c = take (Z.to_nat 2) c'.
Proof.
  apply (chunk_md_consecutive_overlap 17%nat sample_text sample_path 5 2);
    [lia | lia | vm_compute; lia].
Defined.

Lemma concat_take_steps (step : nat) (n : nat) :
  (0 < step)%nat ->
  forall text : str,
    (length text <= n * step)%nat ->
    concat ((fun k : nat => take step (drop (k * step) text)) <$> seq 0 n)
    = text.
Proof.
  intros Hs. induction n as [|n IH]; intros text Hlen.
  - destruct text; [reflexivity | simpl in Hlen; lia].
  - cbn [seq fmap list_fmap concat]. rewrite <- fmap_S_seq.
    rewrite <- list_fmap_compose.
    rewrite (list_fmap_ext _ (fun k : nat =>
               take step (drop (k * step) (drop step text))) (seq 0 n)).
    + rewrite IH by (rewrite length_drop; lia).
      cbn [Nat.mul drop]. apply take_drop.
    + intros i k _. cbn [compose]. rewrite drop_drop. do 2 f_equal; lia.
Qed.

(** X3: with a chunk size of at least 2 and an overlap between 0 and the
    chunk size, the normalized text is recovered from the chunks: it is
    the first chunk_size - overlap characters of each chunk, put end to
    end. *)
Theorem chunk_md_reassembles fuel content path chunk_size overlap :
  2 <= chunk_size -> 0 <= overlap < chunk_size ->
  (length (normalize content) < fuel)%nat ->
  exists chunks,
    chunk_md fuel content path chunk_size overlap = Some chunks
    /\ concat (take (Z.to_nat (chunk_size - overlap)) <$> chunks.*1)
       = normalize content.
Proof.
  intros Hc Ho Hf. eexists. split; [apply chunk_md_closed; lia|].
  rewrite emit_texts, windows_all_nonblank by lia.
  unfold windows, window_starts.
  rewrite <- !list_fmap_compose.
  set (text := normalize content). set (step := chunk_size - overlap).
  assert (Hn := len_nonneg text).
  rewrite (list_fmap_ext _ (fun k : nat =>
             take (Z.to_nat step) (drop (k * Z.to_nat step) text))
             (seq 0 (window_count (len text) step))).
  - apply concat_take_steps; [unfold step; lia|].
    assert (H := proj2 (window_count_spec (len text) step
                          (window_count (len text) step) Hn
                          ltac:(unfold step; lia))).
    assert (~ Z.of_nat (window_count (len text) step) * step < len text)
      by (intros H'; apply H in H'; lia).
    unfold len in *. nia.
  - intros i k _. cbn [compose]. unfold window. rewrite take_take.
    replace (Z.to_nat step `min` Z.to_nat chunk_size)%nat
      with (Z.to_nat step) by (unfold step; lia).
    do 2 f_equal. unfold step. nia.
Qed.

Lemma chunk_md_reassembles_witness :
  exists chunks,
    chunk_md 17 sample_text sample_path 5 2 = Some chunks
    /\ concat (take (Z.to_nat (5 - 2)) <$> chunks.*1) = normalize sample_text.
Proof.
  apply (chunk_md_reassembles 17%nat sample_text sample_path 5 2);
    [lia | lia | vm_compute; lia].
Defined.

End ChunkerMore.

(** ** More on the indexer: what reaches the store *)

Section IndexerMore.

Lemma N_of_ascii_inj a b : N_of_ascii a = N_of_ascii b -> a = b.
Proof.
  intros H. rewrite <- (ascii_N_embedding a), <- (ascii_N_embedding b).
  now rewrite H.
Qed.

Lemma str_of_inj s t : str_of s = str_of t -> s = t.
Proof.
  revert t. induction s as [|a s IH]; intros [|b t]; try discriminate;
    [reflexivity|].
  unfold str_of. cbn [list_ascii_of_string List.map]. intros [= Ha Hs].
  apply N_of_ascii_inj in Ha as ->. f_equal. now apply IH.
Qed.

Lemma pretty_N_char_not_colon d : N_of_ascii (pretty_N_char d) <> 58%N.
Proof. unfold pretty_N_char. repeat case_match; discriminate. Qed.

Lemma pretty_N_go_no_colon x s :
  58%N ∉ str_of s -> 58%N ∉ str_of (pretty_N_go x s).
Proof.
  revert s. induction (N.lt_wf_0 x) as [x _ IH]; intros s Hs.
  destruct (decide (x = 0%N)) as [->|Hx]; [now rewrite pretty_N_go_0|].
  rewrite pretty_N_go_step by lia. apply IH.
  - apply N.div_lt; lia.
  - unfold str_of. cbn [list_ascii_of_string List.map].
    intros [H|H]%elem_of_cons; [|contradiction].
    now apply (pretty_N_char_not_colon (x `mod` 10)%N).
Qed.

Lemma pretty_nat_no_colon (k : nat) : 58%N ∉ str_of (pretty k).
Proof.
  unfold pretty, pretty_nat, pretty, pretty_N. case_decide.
  - change (str_of "0") with [48%N]. intros G.
    apply elem_of_cons in G as [G|G]; [discriminate|].
    now apply not_elem_of_nil in G.
  - apply pretty_N_go_no_colon. apply not_elem_of_nil.
Qed.

Lemma app_pivot_inj {A} (x : A) l1 t1 l2 t2 :
  x ∉ t1 -> x ∉ t2 -> l1 ++ x :: t1 = l2 ++ x :: t2 -> l1 = l2 /\ t1 = t2.
Proof.
  intros H1 H2. rewrite <- (reverse_involutive l1), <- (reverse_involutive l2).
  intros H. apply (f_equal reverse) in H.
  rewrite !reverse_app, !reverse_cons, <- !app_assoc in H. cbn [app] in H.
  rewrite !reverse_involutive in H.
  assert (G : forall a b c d : list A,
             x ∉ a -> x ∉ c -> a ++ x :: b = c ++ x :: d -> a = c /\ b = d).
  { clear. induction a as [|y a IH]; intros b [|z c] d Ha Hc E.
    - now injection E as <-.
    - injection E as <- _. exfalso. apply Hc. apply list_elem_of_here.
    - injection E as -> _. exfalso. apply Ha. apply list_elem_of_here.
    - injection E as -> E. destruct (IH b c d) as [-> ->]; [| |exact E|auto].
      + intros H. apply Ha. now apply list_elem_of_further.
      + intros H. apply Hc. now apply list_elem_of_further. }
  destruct (G (reverse t1) (reverse l1) (reverse t2) (reverse l2)) as [E1 E2].
  - now rewrite elem_of_reverse.
  - now rewrite elem_of_reverse.
  - exact H.
  - split.
    + now rewrite E2.
    + rewrite <- (reverse_involutive t1), <- (reverse_involutive t2).
      now rewrite E1.
Qed.

(** Ids with different numbers differ, whatever their paths. *)
Lemma numbered_id_inj (r1 r2 : str) (k1 k2 : nat) :
  r1 ++ str_of ":" ++ str_of (pretty k1) = r2 ++ str_of ":" ++ str_of (pretty k2) ->
  r1 = r2 /\ k1 = k2.
Proof.
  change (str_of ":") with [58%N]. cbn [app]. intros H.
  apply app_pivot_inj in H as [-> H]; try apply pretty_nat_no_colon.
  split; [reflexivity|]. apply str_of_inj in H. now apply (inj pretty).
Qed.

Lemma chunk_md_loop_paths fuel content path chunk_size overlap :
  forall start chunks r,
    chunk_md_loop fuel content path chunk_size overlap start chunks = Some r ->
    (forall c p, (c, p) ∈ chunks -> p = path) ->
    forall c p, (c, p) ∈ r -> p = path.
Proof.
  induction fuel as [|fuel IH]; intros start chunks r H Hc; [discriminate|].
  cbn [chunk_md_loop] in H. destruct (start <? len content).
  - apply (IH _ _ _ H). intros c p Hin.
    destruct (truthy _); [|now apply (Hc c)].
    apply elem_of_app in Hin as [Hin|Hin]; [now apply (Hc c)|].
    apply elem_of_cons in Hin as [[= _ ->]|Hin]; [reflexivity|].
    now apply not_elem_of_nil in Hin.
  - injection H as <-. exact Hc.
Qed.

Lemma chunk_md_paths fuel content path chunk_size overlap chunks c p :
  chunk_md fuel content path chunk_size overlap = Some chunks ->
  (c, p) ∈ chunks -> p = path.
Proof.
  intros H. apply (chunk_md_loop_paths _ _ _ _ _ _ _ _ H).
  intros c' p' Hin. now apply not_elem_of_nil in Hin.
Qed.

Lemma batch_ok_empty fuel files : batch_ok fuel files empty_batch.
Proof. repeat split. intros k id H. discriminate. Qed.

Lemma foldl_append_chunk_ok fuel files md text chunks :
  md ∈ files -> md_read md = ReadText text ->
  chunk_md fuel text (md_rel md) default_chunk_size default_overlap
  = Some chunks ->
  forall cs b,
    (forall c, c ∈ cs -> c ∈ chunks) ->
    batch_ok fuel files b ->
    batch_ok fuel files (foldl (append_chunk (md_rel md)) b cs).
Proof.
  intros Hmd Hread Hchunks.
  induction cs as [|[chunk p] cs IH]; intros b Hsub Hb; [exact Hb|].
  cbn [foldl]. apply IH.
  { intros c Hc. apply Hsub. now apply list_elem_of_further. }
  destruct Hb as (Hd & Hm & Hi & Hk).
  assert (Hp : p = md_rel md).
  { apply (chunk_md_paths _ _ _ _ _ _ chunk p Hchunks).
    apply Hsub. apply list_elem_of_here. }
  unfold batch_ok. cbn [append_chunk docs metas ids idx].
  rewrite !length_app. cbn [length].
  split; [lia|]. split; [lia|]. split; [lia|].
  intros k id Hlook.
  apply lookup_app_Some in Hlook as [Hlook|[Hge Hlook]].
  - destruct (Hk k id Hlook) as (md' & t' & cs' & doc & H1 & H2 & H3 & H4
                                  & H5 & H6 & H7).
    exists md', t', cs', doc. repeat split; try assumption.
    + now apply lookup_app_l_Some.
    + now apply lookup_app_l_Some.
  - apply list_lookup_singleton_Some in Hlook as [Hz <-].
    assert (k = idx b) as -> by lia.
    exists md, text, chunks, chunk. repeat split; try assumption.
    + subst p. apply Hsub. apply list_elem_of_here.
    + rewrite lookup_app_r by lia. now rewrite Hm, Nat.sub_diag.
    + rewrite lookup_app_r by lia. now rewrite Hd, Nat.sub_diag.
Qed.

Lemma index_files_ok fuel files :
  forall rest b b',
    (forall md, md ∈ rest -> md ∈ files) ->
    batch_ok fuel files b ->
    index_files fuel b rest = Some b' ->
    batch_ok fuel files b'.
Proof.
  induction rest as [|md rest IH]; intros b b' Hsub Hb H.
  - now injection H as <-.
  - cbn [index_files] in H. unfold index_file in H.
    assert (Hrest : forall md', md' ∈ rest -> md' ∈ files).
    { intros md' Hin. apply Hsub. now apply list_elem_of_further. }
    destruct (md_read md) as [text|e] eqn:E.
    + destruct (chunk_md fuel text (md_rel md) default_chunk_size
                         default_overlap) as [chunks|] eqn:Ec; [|discriminate].
      apply (IH _ _ Hrest) in H; [exact H|].
      apply (foldl_append_chunk_ok fuel files md text chunks); auto.
      apply Hsub. apply list_elem_of_here.
    + apply (IH _ _ Hrest) in H; [exact H|].
      destruct Hb as (Hd & Hm & Hi & Hk). repeat split; assumption.
Qed.

Lemma batch_ok_NoDup fuel files b : batch_ok fuel files b -> NoDup (ids b).
Proof.
  intros (_ & _ & _ & Hk). apply NoDup_alt. intros i j id Hi Hj.
  destruct (Hk i id Hi) as (md & _ & _ & _ & _ & _ & _ & _ & E1 & _).
  destruct (Hk j id Hj) as (md' & _ & _ & _ & _ & _ & _ & _ & E2 & _).
  rewrite E1 in E2. now apply numbered_id_inj in E2.
Qed.

(** *** Inserting a list of entries with distinct ids *)

Lemma foldl_insert_other (l : list (str * entry)) (c : gmap str entry) i :
  i ∉ l.*1 ->
  foldl (fun c '(i, dm) => <[i := dm]> c) c l !! i = c !! i.
Proof.
  revert c. induction l as [|[j w] l IH]; intros c Hi; [reflexivity|].
  cbn [foldl]. rewrite IH.
  - apply lookup_insert_ne. intros ->. apply Hi. apply list_elem_of_here.
  - intros H. apply Hi. now apply list_elem_of_further.
Qed.

Lemma foldl_insert_lookup (l : list (str * entry)) (c : gmap str entry)
    (k : nat) i v :
  NoDup l.*1 -> l !! k = Some (i, v) ->
  foldl (fun c '(i, dm) => <[i := dm]> c) c l !! i = Some v.
Proof.
  revert c k. induction l as [|[j w] l IH]; intros c k Hnd Hk; [discriminate|].
  cbn [fmap list_fmap] in Hnd. apply NoDup_cons in Hnd as [Hj Hnd].
  cbn [foldl]. destruct k as [|k].
  - injection Hk as -> ->. rewrite foldl_insert_other by exact Hj.
    apply lookup_insert_eq.
  - now apply (IH _ k).
Qed.

Lemma foldl_insert_size (l : list (str * entry)) (c : gmap str entry) :
  NoDup l.*1 -> (forall i, i ∈ l.*1 -> c !! i = None) ->
  size (foldl (fun c '(i, dm) => <[i := dm]> c) c l) = (size c + length l)%nat.
Proof.
  revert c. induction l as [|[j w] l IH]; intros c Hnd Hc; [simpl; lia|].
  cbn [fmap list_fmap] in Hnd, Hc. apply NoDup_cons in Hnd as [Hj Hnd].
  cbn [foldl]. rewrite IH.
  - rewrite map_size_insert_None by (apply Hc, list_elem_of_here).
    simpl. lia.
  - exact Hnd.
  - intros i Hi. rewrite lookup_insert_ne.
    + apply Hc. now apply list_elem_of_further.
    + intros ->. contradiction.
Qed.

Lemma upsert_keys (ds : list str) (ms : list (gmap str str)) (ks : list str) :
  length ds = length ks -> length ms = length ks ->
  (zip ks (zip ds ms)).*1 = ks.
Proof. intros H1 H2. apply fst_zip. rewrite length_zip. lia. Qed.

Lemma upsert_lookup (ds : list str) (ms : list (gmap str str))
    (ks : list str) (coll : gmap str entry) (k : nat) id d m :
  length ds = length ks -> length ms = length ks -> NoDup ks ->
  ks !! k = Some id -> ds !! k = Some d -> ms !! k = Some m ->
  upsert ds ms ks coll !! id = Some (d, m).
Proof.
  intros H1 H2 Hnd Hk Hd Hm. unfold upsert.
  apply (foldl_insert_lookup _ _ k).
  - now rewrite upsert_keys.
  - apply lookup_zip_with_Some. exists id, (d, m).
    split; [reflexivity|]. split; [exact Hk|].
    apply lookup_zip_with_Some. now exists d, m.
Qed.

Lemma upsert_other (ds : list str) (ms : list (gmap str str))
    (ks : list str) (coll : gmap str entry) id :
  id ∉ ks -> upsert ds ms ks coll !! id = coll !! id.
Proof.
  intros Hid. unfold upsert. apply foldl_insert_other.
  intros H. apply Hid. apply list_elem_of_fmap in H as ([i dm] & -> & Hin).
  now apply elem_of_zip_l in Hin.
Qed.

Lemma foldl_insert_is_Some (l : list (str * entry)) (c : gmap str entry) i :
  is_Some (c !! i) ->
  is_Some (foldl (fun c '(i, dm) => <[i := dm]> c) c l !! i).
Proof.
  revert c. induction l as [|[j w] l IH]; intros c Hi; [exact Hi|].
  cbn [foldl]. apply IH. destruct (decide (j = i)) as [->|Hne].
  - rewrite lookup_insert_eq. eauto.
  - now rewrite lookup_insert_ne.
Qed.

(** A run whose fuel covers the listing of an existing vault ends, with a
    batch that satisfies [batch_ok]. *)
Lemma index_vault_run (fuel : nat) (fs : vault_fs) (coll : gmap str entry) :
  fuel_covers fuel (vault_rglob fs) -> vault_exists fs = true ->
  exists b,
    index_files fuel empty_batch (vault_rglob fs) = Some b
    /\ batch_ok fuel (vault_rglob fs) b
    /\ index_vault fuel fs coll
       = Some (if truthy (docs b)
               then {| exit_code := 0;
                       stdout := [str_of "Indexed "
                                    ++ str_of (pretty (length (docs b)))
                                    ++ str_of " chunks from " ++ vault_path fs];
                       stderr := skipped b;
                       upsert_calls := [(docs b, metas b, ids b)];
                       collection := upsert (docs b) (metas b) (ids b) coll |}
               else {| exit_code := 0;
                       stdout := [str_of "No documents to index."];
                       stderr := skipped b;
                       upsert_calls := []; collection := coll |}).
Proof.
  intros Hf He.
  destruct (index_files_total fuel (vault_rglob fs) Hf empty_batch) as [b Hb].
  exists b. split; [exact Hb|]. split.
  - apply (index_files_ok fuel (vault_rglob fs) (vault_rglob fs) empty_batch);
      [auto | apply batch_ok_empty | exact Hb].
  - unfold index_vault. rewrite He, Hb. cbn [negb].
    now destruct (truthy (docs b)).
Qed.

Lemma index_vault_missing (fuel : nat) (fs : vault_fs) (coll : gmap str entry) :
  vault_exists fs = false ->
  index_vault fuel fs coll
  = Some {| exit_code := 1; stdout := [];
            stderr := [str_of "Vault path does not exist: " ++ vault_path fs];
            upsert_calls := []; collection := coll |}.
Proof. intros He. unfold index_vault. now rewrite He. Qed.

(** X4: a run calls upsert at most once, never with empty lists, always
    with as many documents and metadata as ids, and with ids that are
    pairwise different. *)
Theorem index_vault_upsert_wellformed (fuel : nat) (fs : vault_fs)
    (coll : gmap str entry) :
  fuel_covers fuel (vault_rglob fs) ->
  exists r,
    index_vault fuel fs coll = Some r
    /\ (length (upsert_calls r) <= 1)%nat
    /\ forall ds ms ks,
         (ds, ms, ks) ∈ upsert_calls r ->
         ks <> [] /\ length ds = length ks /\ length ms = length ks
         /\ NoDup ks.
Proof.
  intros Hf. destruct (vault_exists fs) eqn:He.
  2:{ eexists. split; [now apply index_vault_missing|].
      split; [simpl; lia|]. intros ds ms ks H. now apply not_elem_of_nil in H. }
  destruct (index_vault_run fuel fs coll Hf He) as (b & _ & Hok & ->).
  eexists. split; [reflexivity|].
  destruct (truthy (docs b)) eqn:Ht; cbn [upsert_calls].
  - split; [simpl; lia|]. intros ds ms ks H.
    apply elem_of_cons in H as [[= -> -> ->]|H];
      [|now apply not_elem_of_nil in H].
    assert (Hnd := batch_ok_NoDup _ _ _ Hok).
    destruct Hok as (Hd & Hm & Hi & _).
    split; [|split; [lia|split; [lia|exact Hnd]]].
    intros E. rewrite E in Hi. simpl in Hi. rewrite <- Hi in Hd.
    destruct (docs b); [discriminate | discriminate].
  - split; [simpl; lia|]. intros ds ms ks H. now apply not_elem_of_nil in H.
Qed.

Lemma index_vault_upsert_wellformed_witness :
  exists r,
    index_vault 6 (sample_vault [file_a; file_locked; file_b]) ∅ = Some r
    /\ (length (upsert_calls r) <= 1)%nat
    /\ forall ds ms ks,
         (ds, ms, ks) ∈ upsert_calls r ->
         ks <> [] /\ length ds = length ks /\ length ms = length ks
         /\ NoDup ks.
Proof.
  apply (index_vault_upsert_wellformed 6%nat
           (sample_vault [file_a; file_locked; file_b]) ∅).
  intros md text Hin Hread. cbn [sample_vault vault_rglob] in Hin.
  apply elem_of_cons in Hin as [->|Hin];
    [injection Hread as <-; vm_compute; lia|].
  apply elem_of_cons in Hin as [->|Hin]; [discriminate Hread|].
  apply elem_of_cons in Hin as [->|Hin];
    [injection Hread as <-; vm_compute; lia|].
  now apply not_elem_of_nil in Hin.
Defined.

(** X5: after a run, every id handed to the store can be looked up in the
    collection, and gives a chunk of one of the listed files together
    with the metadata that names this file; the id is the file's relative
    path, a colon and the position of the chunk in the batch. *)
Theorem index_vault_entries_retrievable (fuel : nat) (fs : vault_fs)
    (coll : gmap str entry) :
  fuel_covers fuel (vault_rglob fs) ->
  exists r,
    index_vault fuel fs coll = Some r
    /\ forall ds ms ks (k : nat) id,
         (ds, ms, ks) ∈ upsert_calls r -> ks !! k = Some id ->
         exists md text chunks doc,
           md ∈ vault_rglob fs /\ md_read md = ReadText text
           /\ chunk_md fuel text (md_rel md) default_chunk_size
                       default_overlap = Some chunks
           /\ (doc, md_rel md) ∈ chunks
           /\ id = md_rel md ++ str_of ":" ++ str_of (pretty k)
           /\ collection r !! id
              = Some (doc, {[ str_of "path" := md_rel md ]}).
Proof.
  intros Hf. destruct (vault_exists fs) eqn:He.
  2:{ eexists. split; [now apply index_vault_missing|].
      intros ds ms ks k id H. now apply not_elem_of_nil in H. }
  destruct (index_vault_run fuel fs coll Hf He) as (b & _ & Hok & ->).
  eexists. split; [reflexivity|].
  destruct (truthy (docs b)) eqn:Ht; cbn [upsert_calls collection];
    intros ds ms ks k id H Hk; [|now apply not_elem_of_nil in H].
  apply elem_of_cons in H as [[= -> -> ->]|H];
    [|now apply not_elem_of_nil in H].
  assert (Hnd := batch_ok_NoDup _ _ _ Hok).
  destruct Hok as (Hd & Hm & Hi & Hids).
  destruct (Hids k id Hk) as (md & text & chunks & doc & H1 & H2 & H3 & H4
                                & H5 & H6 & H7).
  exists md, text, chunks, doc. repeat split; try assumption.
  apply (upsert_lookup _ _ _ _ k); auto; lia.
Qed.

Lemma index_vault_entries_retrievable_witness :
  exists r,
    index_vault 6 (sample_vault [file_a; file_b]) ∅ = Some r
    /\ forall ds ms ks (k : nat) id,
         (ds, ms, ks) ∈ upsert_calls r -> ks !! k = Some id ->
         exists md text chunks doc,
           md ∈ [file_a; file_b] /\ md_read md = ReadText text
           /\ chunk_md 6 text (md_rel md) default_chunk_size
                       default_overlap = Some chunks
           /\ (doc, md_rel md) ∈ chunks
           /\ id = md_rel md ++ str_of ":" ++ str_of (pretty k)
           /\ collection r !! id
              = Some (doc, {[ str_of "path" := md_rel md ]}).
Proof.
  apply (index_vault_entries_retrievable 6%nat
           (sample_vault [file_a; file_b]) ∅).
  intros md text Hin Hread. cbn [sample_vault vault_rglob] in Hin.
  apply elem_of_cons in Hin as [->|Hin];
    [injection Hread as <-; vm_compute; lia|].
  apply elem_of_cons in Hin as [->|Hin];
    [injection Hread as <-; vm_compute; lia|].
  now apply not_elem_of_nil in Hin.
Defined.

(** X6: a run never removes an entry of the collection, and leaves every
    entry whose id is not among the ids it writes as it was. *)
Theorem index_vault_additive (fuel : nat) (fs : vault_fs) (coll : gmap str entry) :
  fuel_covers fuel (vault_rglob fs) ->
  exists r,
    index_vault fuel fs coll = Some r
    /\ (forall id, is_Some (coll !! id) -> is_Some (collection r !! id))
    /\ forall id,
         (forall ds ms ks, (ds, ms, ks) ∈ upsert_calls r -> id ∉ ks) ->
         collection r !! id = coll !! id.
Proof.
  intros Hf. destruct (vault_exists fs) eqn:He.
  2:{ eexists. split; [now apply index_vault_missing|]. now split. }
  destruct (index_vault_run fuel fs coll Hf He) as (b & _ & Hok & ->).
  eexists. split; [reflexivity|].
  destruct (truthy (docs b)); cbn [upsert_calls collection]; [|now split].
  split.
  - intros id Hid. unfold upsert. now apply foldl_insert_is_Some.
  - intros id Hid. apply upsert_other.
    apply (Hid (docs b) (metas b)). apply list_elem_of_here.
Qed.

Lemma index_vault_additive_witness :
  exists r,
    index_vault 6 (sample_vault [file_a; file_b])
                {[ str_of "old.md:0" := (str_of "stale", ∅) ]} = Some r
    /\ (forall id,
           is_Some (({[ str_of "old.md:0" := (str_of "stale", ∅) ]}
                       : gmap str entry) !! id) ->
           is_Some (collection r !! id))
    /\ forall id,
         (forall ds ms ks, (ds, ms, ks) ∈ upsert_calls r -> id ∉ ks) ->
         collection r !! id
         = ({[ str_of "old.md:0" := (str_of "stale", ∅) ]}
              : gmap str entry) !! id.
Proof.
  apply (index_vault_additive 6%nat (sample_vault [file_a; file_b])).
  intros md text Hin Hread. cbn [sample_vault vault_rglob] in Hin.
  apply elem_of_cons in Hin as [->|Hin];
    [injection Hread as <-; vm_compute; lia|].
  apply elem_of_cons in Hin as [->|Hin];
    [injection Hread as <-; vm_compute; lia|].
  now apply not_elem_of_nil in Hin.
Defined.

(** X7: on an empty collection, the number that a run of an existing
    vault reports in "Indexed ... chunks from ..." is the number of
    entries of the collection afterwards, and the run prints
    "No documents to index." exactly when the collection stays empty. *)
Theorem index_vault_reports_entry_count (fuel : nat) (fs : vault_fs) :
  fuel_covers fuel (vault_rglob fs) -> vault_exists fs = true ->
  exists r,
    index_vault fuel fs ∅ = Some r
    /\ ((size (collection r) = 0%nat
         /\ stdout r = [str_of "No documents to index."])
        \/ ((0 < size (collection r))%nat
            /\ stdout r
               = [str_of "Indexed " ++ str_of (pretty (size (collection r)))
                    ++ str_of " chunks from " ++ vault_path fs])).
Proof.
  intros Hf He.
  destruct (index_vault_run fuel fs ∅ Hf He) as (b & _ & Hok & ->).
  eexists. split; [reflexivity|].
  destruct (truthy (docs b)) eqn:Ht; cbn [stdout collection].
  - right. assert (Hnd := batch_ok_NoDup _ _ _ Hok).
    destruct Hok as (Hd & Hm & Hi & _).
    assert (Hsize : size (upsert (docs b) (metas b) (ids b) ∅)
                    = length (docs b)).
    { unfold upsert. rewrite foldl_insert_size.
      - rewrite map_size_empty, !length_zip. lia.
      - rewrite upsert_keys by lia. exact Hnd.
      - intros i _. apply lookup_empty. }
    rewrite Hsize. split; [|reflexivity].
    destruct (docs b); [discriminate | simpl; lia].
  - left. split; [apply map_size_empty | reflexivity].
Qed.

Lemma index_vault_reports_entry_count_witness :
  exists r,
    index_vault 6 (sample_vault [file_a; file_b]) ∅ = Some r
    /\ ((size (collection r) = 0%nat
         /\ stdout r = [str_of "No documents to index."])
        \/ ((0 < size (collection r))%nat
            /\ stdout r
               = [str_of "Indexed " ++ str_of (pretty (size (collection r)))
                    ++ str_of " chunks from " ++ str_of "/vault"])).
Proof.
  apply (index_vault_reports_entry_count 6%nat
           (sample_vault [file_a; file_b])); [|reflexivity].
  intros md text Hin Hread. cbn [sample_vault vault_rglob] in Hin.
  apply elem_of_cons in Hin as [->|Hin];
    [injection Hread as <-; vm_compute; lia|].
  apply elem_of_cons in Hin as [->|Hin];
    [injection Hread as <-; vm_compute; lia|].
  now apply not_elem_of_nil in Hin.
Defined.

Lemma foldl_append_chunk_fields rel cs :
  forall b1 b2,
    docs b1 = docs b2 -> metas b1 = metas b2 -> ids b1 = ids b2 ->
    idx b1 = idx b2 ->
    docs (foldl (append_chunk rel) b1 cs) = docs (foldl (append_chunk rel) b2 cs)
    /\ metas (foldl (append_chunk rel) b1 cs)
       = metas (foldl (append_chunk rel) b2 cs)
    /\ ids (foldl (append_chunk rel) b1 cs) = ids (foldl (append_chunk rel) b2 cs)
    /\ idx (foldl (append_chunk rel) b1 cs) = idx (foldl (append_chunk rel) b2 cs)
    /\ skipped (foldl (append_chunk rel) b1 cs) = skipped b1.
Proof.
  induction cs as [|[chunk p] cs IH]; intros b1 b2 Hd Hm Hi Hx; [auto|].
  cbn [foldl].
  destruct (IH (append_chunk rel b1 (chunk, p)) (append_chunk rel b2 (chunk, p)))
    as (H1 & H2 & H3 & H4 & H5);
    cbn [append_chunk docs metas ids idx]; try congruence.
  auto.
Qed.

Lemma index_files_readable fuel files :
  forall b1 b2 b1',
    docs b1 = docs b2 -> metas b1 = metas b2 -> ids b1 = ids b2 ->
    idx b1 = idx b2 ->
    index_files fuel b1 files = Some b1' ->
    exists b2',
      index_files fuel b2 (List.filter is_readable files) = Some b2'
      /\ docs b1' = docs b2' /\ metas b1' = metas b2' /\ ids b1' = ids b2'
      /\ skipped b2' = skipped b2
      /\ length (skipped b1')
         = (length (skipped b1)
            + length (List.filter (fun md => negb (is_readable md)) files))%nat.
Proof.
  induction files as [|md files IH]; intros b1 b2 b1' Hd Hm Hi Hx H.
  - injection H as <-. exists b2. cbn [List.filter length]. repeat split; auto.
  - cbn [index_files] in H. unfold index_file in H. cbn [List.filter].
    destruct (md_read md) as [text|e] eqn:E.
    + assert (Hr : is_readable md = true) by (unfold is_readable; now rewrite E).
      rewrite Hr. cbn [negb index_files]. unfold index_file. rewrite E.
      destruct (chunk_md fuel text (md_rel md) default_chunk_size
                         default_overlap) as [chunks|] eqn:Ec; [|discriminate].
      destruct (foldl_append_chunk_fields (md_rel md) chunks b1 b2 Hd Hm Hi Hx)
        as (H1 & H2 & H3 & H4 & H5).
      destruct (foldl_append_chunk_fields (md_rel md) chunks b2 b1)
        as (_ & _ & _ & _ & H6); try congruence.
      destruct (IH _ (foldl (append_chunk (md_rel md)) b2 chunks) _
                  H1 H2 H3 H4 H)
        as (b2' & G1 & G2 & G3 & G4 & G5 & G6).
      exists b2'. rewrite <- H5, <- H6. repeat split; auto.
    + assert (Hr : is_readable md = false) by (unfold is_readable; now rewrite E).
      rewrite Hr. cbn [negb].
      eapply (IH _ b2) in H; [|exact Hd|exact Hm|exact Hi|exact Hx].
      destruct H as (b2' & G1 & G2 & G3 & G4 & G5 & G6).
      exists b2'. repeat split; auto.
      rewrite G6. cbn [skipped length]. rewrite length_app. simpl. lia.
Qed.

(** X8: files that cannot be read change nothing but the standard error
    stream: a run over a listing and a run over the same listing without
    the unreadable files return the same code, print the same line, call
    upsert with the same lists and leave the same collection; the first
    one writes one line per unreadable file to standard error, the second
    one none. *)
Theorem index_vault_skips_unreadable (fuel : nat) (fs : vault_fs)
    (coll : gmap str entry) :
  fuel_covers fuel (vault_rglob fs) ->
  exists r r',
    index_vault fuel fs coll = Some r
    /\ index_vault fuel (readable_only fs) coll = Some r'
    /\ exit_code r' = exit_code r /\ stdout r' = stdout r
    /\ upsert_calls r' = upsert_calls r /\ collection r' = collection r
    /\ (vault_exists fs = true ->
        stderr r' = []
        /\ length (stderr r)
           = length (List.filter (fun md => negb (is_readable md))
                                 (vault_rglob fs))).
Proof.
  intros Hf. destruct (vault_exists fs) eqn:He.
  2:{ do 2 eexists. split; [now apply index_vault_missing|].
      split; [now apply index_vault_missing|].
      cbn. repeat split; discriminate. }
  destruct (index_vault_run fuel fs coll Hf He) as (b & Hb & _ & ->).
  destruct (index_files_readable fuel (vault_rglob fs) empty_batch empty_batch b
              eq_refl eq_refl eq_refl eq_refl Hb)
    as (b' & Hb' & Hd & Hm & Hi & Hs & Hl).
  unfold index_vault, readable_only.
  cbn [vault_exists vault_rglob vault_path]. rewrite He, Hb'. cbn [negb].
  rewrite <- Hd, <- Hm, <- Hi, Hs.
  destruct (truthy (docs b)); cbn [negb]; do 2 eexists;
    (split; [reflexivity|]); (split; [reflexivity|]);
    cbn; repeat split; auto.
Qed.

Lemma index_vault_skips_unreadable_witness :
  exists r r',
    index_vault 6 (sample_vault [file_a; file_locked; file_b]) ∅ = Some r
    /\ index_vault 6 (readable_only (sample_vault [file_a; file_locked; file_b]))
                   ∅ = Some r'
    /\ exit_code r' = exit_code r /\ stdout r' = stdout r
    /\ upsert_calls r' = upsert_calls r /\ collection r' = collection r
    /\ (true = true ->
        stderr r' = []
        /\ length (stderr r)
           = length (List.filter (fun md => negb (is_readable md))
                                 [file_a; file_locked; file_b])).
Proof.
  apply (index_vault_skips_unreadable 6%nat
           (sample_vault [file_a; file_locked; file_b]) ∅).
  intros md text Hin Hread. cbn [sample_vault vault_rglob] in Hin.
  apply elem_of_cons in Hin as [->|Hin];
    [injection Hread as <-; vm_compute; lia|].
  apply elem_of_cons in Hin as [->|Hin]; [discriminate Hread|].
  apply elem_of_cons in Hin as [->|Hin];
    [injection Hread as <-; vm_compute; lia|].
  now apply not_elem_of_nil in Hin.
Defined.

End IndexerMore.

(** ** Blank texts, and replies with bad metadata *)

Section EdgeCases.

Lemma re_sub_ws_nil s : re_sub_ws s = [] -> s = [].
Proof.
  unfold re_sub_ws. destruct s as [|c s]; [reflexivity|].
  cbn [re_sub_ws_from]. destruct (isspace c); discriminate.
Qed.

Lemma normalize_nil_iff content :
  normalize content = [] <-> has_nonws content = false.
Proof.
  rewrite <- nonblank_has_nonws. unfold nonblank, normalize. split.
  - intros H. apply re_sub_ws_nil in H. now rewrite H.
  - intros H. destruct (strip content); [reflexivity | discriminate].
Qed.

(** X9: for a chunk size of at least 1 and a smaller overlap, the chunker
    returns no chunk exactly when the text has no character that is not
    whitespace. *)
Theorem chunk_md_no_chunk_iff_blank fuel content path chunk_size overlap :
  1 <= chunk_size -> overlap < chunk_size ->
  (length (normalize content) < fuel)%nat ->
  exists chunks,
    chunk_md fuel content path chunk_size overlap = Some chunks
    /\ (chunks = [] <-> has_nonws content = false).
Proof.
  intros Hc Ho Hf. eexists. split; [apply chunk_md_closed; lia|].
  rewrite <- normalize_nil_iff.
  assert (Ht := normalize_tidy content).
  destruct (normalize content) as [|c text] eqn:E.
  - split; [reflexivity|]. intros _. unfold windows, window_starts, window_count.
    change (len []) with 0. rewrite Z.div_small by lia. reflexivity.
  - split; [|discriminate]. intros H. exfalso.
    assert (Hpos : (0 < window_count (len (c :: text)) (chunk_size - overlap))%nat).
    { apply window_count_spec; [apply len_nonneg | lia |].
      unfold len. simpl. lia. }
    assert (Hw := windows_lookup (c :: text) chunk_size overlap 0 Hpos).
    destruct (windows (c :: text) chunk_size overlap) as [|w ws];
      [discriminate|].
    injection Hw as ->. rewrite emit_cons in H.
    assert (Hnb : nonblank (window (c :: text) chunk_size
                                   (Z.of_nat 0 * (chunk_size - overlap)))
                  = true).
    { rewrite nonblank_has_nonws. unfold window.
      replace (Z.to_nat (Z.of_nat 0 * (chunk_size - overlap))) with 0%nat
        by lia.
      destruct (Z.to_nat chunk_size) as [|n] eqn:En; [lia|].
      cbn [drop take has_nonws existsb].
      unfold tidy in Ht. cbn [tidy_from] in Ht.
      destruct (isspace c); [|reflexivity].
      cbn [negb] in Ht. rewrite andb_false_r in Ht. discriminate. }
    rewrite Hnb in H. discriminate.
Qed.

Lemma chunk_md_no_chunk_iff_blank_witness :
  exists chunks,
    chunk_md 4 [10%N; 32%N; 10%N] sample_path 1000 200 = Some chunks
    /\ (chunks = [] <-> has_nonws [10%N; 32%N; 10%N] = false).
Proof.
  apply (chunk_md_no_chunk_iff_blank 4%nat [10%N; 32%N; 10%N] sample_path
           1000 200); [lia | lia | vm_compute; lia].
Defined.

Lemma lines_from_cons (i : nat) (doc : str) (meta : gmap str str)
    (dm : list (str * gmap str str)) :
  lines_from i ((doc, meta) :: dm)
  = result_lines i (source_of meta) (excerpt_of doc) ++ lines_from (S i) dm.
Proof.
  unfold lines_from. rewrite imap_cons. cbn [concat]. rewrite Nat.add_0_r.
  do 2 f_equal. apply imap_ext. intros j [d m] _. cbn [compose].
  now replace (S i + j)%nat with (i + S j)%nat by lia.
Qed.

(** While the metadata of the documents are dictionaries, the loop prints
    and goes on. *)
Lemma query_loop_good_prefix (results : query_result)
    (metas0 : list (option (gmap str str)))
    (more_metas : list (list (option (gmap str str))))
    (dm : list (str * gmap str str)) (rest : list str) :
  metadatas results = Some (metas0 :: more_metas) ->
  forall (i : nat) (out : list str),
    (forall (j : nat) d m, dm !! j = Some (d, m) ->
                           metas0 !! (i + j)%nat = Some (Some m)) ->
    query_loop results i (dm.*1 ++ rest) out
    = query_loop results (i + length dm) rest (out ++ lines_from i dm).
Proof.
  intros Hm. induction dm as [|[doc meta] dm IH]; intros i out Hgood.
  - cbn. now rewrite Nat.add_0_r, app_nil_r.
  - cbn [fmap list_fmap fst app query_loop]. unfold meta_at. rewrite Hm.
    assert (H0 := Hgood 0%nat doc meta eq_refl). rewrite Nat.add_0_r in H0.
    rewrite H0. rewrite IH.
    + cbn [length]. replace (S i + length dm)%nat with (i + S (length dm))%nat
        by lia.
      now rewrite lines_from_cons, app_assoc.
    + intros j d m Hj. replace (S i + j)%nat with (i + S j)%nat by lia.
      now apply (Hgood (S j) d m).
Qed.

(** X10: when the metadata list of the reply is shorter than the list of
    documents, or holds [None] for a document, [query] prints the results
    that come before this document and then fails: it writes
    "Query error: ..." to standard error and exits with status 1; the
    documents from there on are not printed. *)
Theorem query_stops_at_bad_metadata
    (collection_query : str -> Z -> query_reply) (text : str) (n : Z)
    (dm : list (str * gmap str str)) (doc : str) (rest : list str)
    (more_docs : list (list str))
    (bad : list (option (gmap str str)))
    (more_metas : list (list (option (gmap str str)))) :
  collection_query text n
  = QueryReturns
      {| documents := Some ((dm.*1 ++ doc :: rest) :: more_docs);
         metadatas := Some (((Some <$> dm.*2) ++ bad) :: more_metas) |} ->
  (bad = [] ->
   query collection_query text n
   = {| printed := lines_from 0 dm;
        errors := [str_of "Query error: list index out of range"];
        sys_exit := Some 1 |})
  /\ (forall tail, bad = None :: tail ->
      query collection_query text n
      = {| printed := lines_from 0 dm;
           errors := [str_of "Query error: 'NoneType' object has no attribute 'get'"];
           sys_exit := Some 1 |}).
Proof.
  intros Hr.
  assert (Hloop : forall out,
             query_loop {| documents := Some ((dm.*1 ++ doc :: rest) :: more_docs);
                           metadatas := Some (((Some <$> dm.*2) ++ bad)
                                                :: more_metas) |}
                        0 (dm.*1 ++ doc :: rest) out
             = query_loop {| documents := Some ((dm.*1 ++ doc :: rest) :: more_docs);
                             metadatas := Some (((Some <$> dm.*2) ++ bad)
                                                  :: more_metas) |}
                          (0 + length dm) (doc :: rest) (out ++ lines_from 0 dm)).
  { intros out. apply (query_loop_good_prefix _ ((Some <$> dm.*2) ++ bad) more_metas);
      [reflexivity|].
    intros j d m Hj. cbn [Nat.add].
    rewrite lookup_app_l by (rewrite !length_fmap; eapply lookup_lt_Some, Hj).
    now rewrite !list_lookup_fmap, Hj. }
  assert (Hdocs : truthy (dm.*1 ++ doc :: rest) = true) by (now destruct dm).
  unfold query. rewrite Hr. cbn [documents]. rewrite Hdocs. cbn [negb].
  rewrite Hloop. cbn [app Nat.add query_loop]. unfold meta_at. cbn [metadatas].
  rewrite lookup_app_r by (rewrite !length_fmap; lia).
  rewrite !length_fmap, Nat.sub_diag.
  split.
  - intros ->. reflexivity.
  - intros tail ->. reflexivity.
Qed.

Lemma query_stops_at_bad_metadata_witness :
  query half_meta_store (str_of "capital of France") 5
  = {| printed := [ str_of "--- Result 1 (Source: notes/today.md) ---";
                    str_of "first"; [] ];
       errors := [str_of "Query error: 'NoneType' object has no attribute 'get'"];
       sys_exit := Some 1 |}.
Proof.
  rewrite (proj2 (query_stops_at_bad_metadata half_meta_store
                    (str_of "capital of France") 5
                    [(str_of "first", {[ str_of "path" := sample_path ]})]
                    (str_of "second") [] [] [None] [] eq_refl) [] eq_refl).
  vm_compute. reflexivity.
Defined.

End EdgeCases.

(** ** The embedding url *)

Section EmbedUrl.

Lemma suffix_v1_nonempty (s : str) : str_of "/v1" `suffix_of` s -> truthy s = true.
Proof. intros [k ->]. now destruct k. Qed.

Lemma default_embed_url_suffix (environ : gmap str str) :
  str_of "/v1" `suffix_of` _default_embed_url environ.
Proof.
  unfold _default_embed_url, endswith.
  set (url := environ_get_or _ _ _).
  destruct (truthy url).
  - destruct (bool_decide (str_of "/v1" `suffix_of` url)) eqn:E; cbn [negb].
    + now apply bool_decide_eq_true in E.
    + now exists (rstrip_chars (str_of "/") url).
  - now exists (str_of "http://127.0.0.1:8080").
Qed.

(** X11: whatever the environment holds, the url of the embedding server
    ends with "/v1", and so it is never empty. *)
Theorem default_embed_url_ends_with_v1 (environ : gmap str str) :
  endswith (_default_embed_url environ) (str_of "/v1") = true
  /\ truthy (_default_embed_url environ) = true.
Proof.
  split.
  - apply bool_decide_eq_true, default_embed_url_suffix.
  - apply suffix_v1_nonempty, default_embed_url_suffix.
Qed.

(** X12: the url is stable: when it is put back into the environment as
    VAULT_EMBEDDING_SERVER_URL, the function returns it unchanged. *)
Theorem default_embed_url_stable (environ : gmap str str) :
  _default_embed_url
    (<[str_of "VAULT_EMBEDDING_SERVER_URL" := _default_embed_url environ]>
       environ)
  = _default_embed_url environ.
Proof.
  assert (Hs := default_embed_url_suffix environ).
  set (r := _default_embed_url environ) in *.
  assert (Ht : truthy r = true) by now apply suffix_v1_nonempty.
  unfold _default_embed_url at 1. unfold environ_get_or, endswith.
  rewrite lookup_insert_eq, Ht, Ht.
  now rewrite bool_decide_eq_true_2 by exact Hs.
Qed.

Lemma lstrip_chars_replicate (c : N) (n : nat) (rest : str) :
  lstrip_chars [c] (replicate n c ++ rest) = lstrip_chars [c] rest.
Proof.
  induction n as [|n IH]; [reflexivity|]. cbn [replicate app lstrip_chars].
  rewrite bool_decide_eq_true_2 by apply list_elem_of_here. exact IH.
Qed.

(** X13: a configured url that ends with "/v1" followed by one or more
    slashes is not recognised as ending with "/v1": the slashes are
    removed and a second "/v1" is added. *)
Theorem default_embed_url_doubles_v1 (environ : gmap str str) (base : str)
    (k : nat) :
  environ !! str_of "VAULT_EMBEDDING_SERVER_URL"
  = Some (base ++ str_of "/v1" ++ replicate (S k) 47%N) ->
  _default_embed_url environ = base ++ str_of "/v1/v1".
Proof.
  intros He. unfold _default_embed_url, environ_get_or. rewrite He.
  remember (base ++ str_of "/v1" ++ replicate (S k) 47%N) as url eqn:Hu.
  assert (Ht : truthy url = true).
  { rewrite Hu. destruct base; reflexivity. }
  assert (Hlast : last url = Some 47%N).
  { rewrite Hu, !app_assoc, replicate_S_end, app_assoc. apply last_snoc. }
  assert (Hs : endswith url (str_of "/v1") = false).
  { unfold endswith. apply bool_decide_eq_false. intros [p Hp].
    rewrite Hp in Hlast.
    change (str_of "/v1") with ([47%N; 118%N] ++ [49%N]) in Hlast.
    rewrite app_assoc, last_snoc in Hlast. discriminate. }
  rewrite Ht, Hs. cbn [negb]. rewrite Ht.
  unfold rstrip_chars. rewrite Hu.
  rewrite !reverse_app, reverse_replicate, <- app_assoc.
  change (str_of "/") with [47%N]. rewrite lstrip_chars_replicate.
  change (reverse (str_of "/v1")) with [49%N; 118%N; 47%N].
  cbn [app lstrip_chars].
  rewrite bool_decide_eq_false_2.
  - rewrite !reverse_cons, reverse_involutive, <- !app_assoc. reflexivity.
  - intros H. apply elem_of_cons in H as [H|H]; [discriminate|].
    now apply not_elem_of_nil in H.
Qed.

Lemma default_embed_url_doubles_v1_witness :
  _default_embed_url
    {[ str_of "VAULT_EMBEDDING_SERVER_URL" := str_of "http://10.0.1.211:8080/v1/" ]}
  = str_of "http://10.0.1.211:8080/v1/v1".
Proof.
  apply (default_embed_url_doubles_v1 _ (str_of "http://10.0.1.211:8080") 0).
  reflexivity.
Defined.

End EmbedUrl.

(** ** The first indexer: ids by path *)

Section SkillIndex.

Lemma skill_coll_foldl (files : list Skill.vault_file) :
  forall st,
    Skill.coll (foldl Skill.index_file st files)
    = foldl (fun c '(i, dm) => <[i := dm]> c) (Skill.coll st)
            (omap Skill.entry_of files)
    /\ Skill.indexed_count (foldl Skill.index_file st files)
       = (Skill.indexed_count st + length (omap Skill.entry_of files))%nat.
Proof.
  induction files as [|f files IH]; intros st; [cbn; split; [reflexivity|lia]|].
  cbn [foldl omap list_omap]. destruct (IH (Skill.index_file st f)) as [-> ->].
  unfold Skill.index_file, Skill.entry_of.
  destruct (Skill.opened f) as [content|e].
  - destruct (negb (truthy (strip content))); cbn; split; try reflexivity; lia.
  - cbn. split; [reflexivity|lia].
Qed.

Lemma entry_of_keys (files : list Skill.vault_file) k :
  k ∈ (omap Skill.entry_of files).*1 -> k ∈ Skill.doc_id <$> files.
Proof.
  intros H. apply list_elem_of_fmap in H as ([i e] & -> & H).
  apply list_elem_of_omap in H as (f & Hf & He).
  apply list_elem_of_fmap. exists f. split; [|exact Hf].
  unfold Skill.entry_of in He. destruct (Skill.opened f); [|discriminate].
  destruct (negb _); [discriminate|]. now injection He as <- _.
Qed.

Lemma entry_of_NoDup (files : list Skill.vault_file) :
  NoDup (Skill.doc_id <$> files) -> NoDup (omap Skill.entry_of files).*1.
Proof.
  induction files as [|f files IH]; intros Hnd; [constructor|].
  cbn [fmap list_fmap] in Hnd. apply NoDup_cons in Hnd as [Hf Hnd].
  cbn [omap list_omap]. destruct (Skill.entry_of f) as [[i e]|] eqn:E;
    [|now apply IH].
  cbn [fmap list_fmap]. apply NoDup_cons. split; [|now apply IH].
  intros H. apply entry_of_keys in H. apply Hf.
  unfold Skill.entry_of in E. destruct (Skill.opened f); [|discriminate].
  destruct (negb _); [discriminate|]. now injection E as <- _.
Qed.

Lemma foldl_insert_perm (l l' : list (str * entry)) (c : gmap str entry) :
  NoDup l.*1 -> l ≡ₚ l' ->
  foldl (fun c '(i, dm) => <[i := dm]> c) c l
  = foldl (fun c '(i, dm) => <[i := dm]> c) c l'.
Proof.
  intros Hnd Hp. assert (Hnd' : NoDup l'.*1) by now rewrite <- Hp.
  apply map_eq. intros i.
  destruct (decide (i ∈ l.*1)) as [Hi|Hi].
  - apply list_elem_of_fmap in Hi as ([j v] & -> & Hin).
    assert (Hin' : (j, v) ∈ l') by now rewrite <- Hp.
    apply list_elem_of_lookup_1 in Hin as [k Hk].
    apply list_elem_of_lookup_1 in Hin' as [k' Hk'].
    cbn [fst]. rewrite (foldl_insert_lookup l c k j v Hnd Hk).
    now rewrite (foldl_insert_lookup l' c k' j v Hnd' Hk').
  - rewrite !foldl_insert_other; [reflexivity| |exact Hi].
    now rewrite <- Hp.
Qed.

(** X14: the first indexer names each entry by the relative path of its
    file alone.  When these paths are pairwise different, the collection
    and the count it ends with do not depend on the order in which the
    files are enumerated, and indexing the same files once more, in any
    order, leaves the collection as it is. *)
Theorem skill_index_order_independent (VAULT_PATH : str)
    (files files' : list Skill.vault_file) (c : gmap str entry) :
  NoDup (Skill.doc_id <$> files) -> files ≡ₚ files' ->
  Skill.coll (Skill.index VAULT_PATH files' c)
  = Skill.coll (Skill.index VAULT_PATH files c)
  /\ Skill.indexed_count (Skill.index VAULT_PATH files' c)
     = Skill.indexed_count (Skill.index VAULT_PATH files c)
  /\ Skill.coll (Skill.index VAULT_PATH files'
                             (Skill.coll (Skill.index VAULT_PATH files c)))
     = Skill.coll (Skill.index VAULT_PATH files c).
Proof.
  intros Hnd Hp. unfold Skill.index. cbn [Skill.coll Skill.indexed_count].
  assert (He : omap Skill.entry_of files ≡ₚ omap Skill.entry_of files')
    by now rewrite Hp.
  assert (Hk := entry_of_NoDup files Hnd).
  destruct (skill_coll_foldl files
              {| Skill.coll := c; Skill.indexed_count := 0; Skill.out := [] |})
    as [E1 E2].
  destruct (skill_coll_foldl files'
              {| Skill.coll := c; Skill.indexed_count := 0; Skill.out := [] |})
    as [E1' E2'].
  destruct (skill_coll_foldl files'
              {| Skill.coll := Skill.coll
                   (foldl Skill.index_file
                      {| Skill.coll := c; Skill.indexed_count := 0;
                         Skill.out := [] |} files);
                 Skill.indexed_count := 0; Skill.out := [] |})
    as [E3 _].
  rewrite E1', E2', E3, E1, E2. cbn [Skill.coll Skill.indexed_count].
  split; [now rewrite <- (foldl_insert_perm _ _ c Hk He)|].
  split; [now rewrite He|].
  rewrite <- (foldl_insert_perm _ _ (foldl _ c _) Hk He).
  rewrite (foldl_insert_union _ (foldl _ c _)), (foldl_insert_union _ c).
  now rewrite (assoc (∪)), (idemp (∪)).
Qed.

Lemma skill_index_order_independent_witness :
  Skill.coll (Skill.index (str_of "/vault") [skill_file_b; skill_file_a] ∅)
  = Skill.coll (Skill.index (str_of "/vault") [skill_file_a; skill_file_b] ∅)
  /\ Skill.indexed_count
       (Skill.index (str_of "/vault") [skill_file_b; skill_file_a] ∅)
     = Skill.indexed_count
         (Skill.index (str_of "/vault") [skill_file_a; skill_file_b] ∅)
  /\ Skill.coll
       (Skill.index (str_of "/vault") [skill_file_b; skill_file_a]
          (Skill.coll
             (Skill.index (str_of "/vault") [skill_file_a; skill_file_b] ∅)))
     = Skill.coll (Skill.index (str_of "/vault") [skill_file_a; skill_file_b] ∅).
Proof.
  apply (skill_index_order_independent (str_of "/vault")
           [skill_file_a; skill_file_b] [skill_file_b; skill_file_a] ∅).
  - apply NoDup_cons. split.
    + intros H. apply elem_of_cons in H as [H|H]; [discriminate|].
      now apply not_elem_of_nil in H.
    + apply NoDup_singleton.
  - apply Permutation_swap.
Defined.

End SkillIndex.

(** ** The history sanitizer *)

Section ForgetTool.

Variable lower : str -> str.














End ForgetTool.







(** ** The mail reader *)

Section CheckEmail.

(** X20: the messages fetched are the [limit] newest ones, newest first,
    when [limit] is at least 1; with a limit of 0 they are all the
    messages, not none; with a negative limit -m they are all but the m
    oldest. *)
Theorem fetch_order_by_limit {A} (mail_ids : list A) (limit : Z) :
  (1 <= limit ->
   fetch_order mail_ids limit = take (Z.to_nat limit) (reverse mail_ids))
  /\ (limit = 0 -> fetch_order mail_ids limit = reverse mail_ids)
  /\ (limit < 0 ->
      fetch_order mail_ids limit
      = reverse (drop (Z.to_nat (- limit)) mail_ids)).
Proof.
  unfold fetch_order, latest_ids, py_slice, slice_bound.
  assert (Hn := len_nonneg mail_ids).
  destruct (Z.ltb_spec (len mail_ids) 0) as [|_]; [lia|].
  rewrite (Z.min_l (len mail_ids)) by lia.
  split; [|split]; intros Hl.
  - destruct (Z.ltb_spec (- limit) 0) as [_|]; [|lia].
    rewrite take_ge by (rewrite length_drop; unfold len in *; lia).
    destruct (Z.le_gt_cases limit (len mail_ids)) as [Hle|Hgt].
    + rewrite Z.max_l by lia.
      set (k := Z.to_nat (- limit + len mail_ids)).
      assert (E : reverse mail_ids
                  = reverse (drop k mail_ids) ++ reverse (take k mail_ids))
        by now rewrite <- reverse_app, take_drop.
      rewrite E, take_app_length'; [reflexivity|].
      rewrite length_reverse, length_drop. unfold k, len in *. lia.
    + rewrite Z.max_r by lia. change (Z.to_nat 0) with 0%nat.
      rewrite drop_0, take_ge; [reflexivity|].
      rewrite length_reverse. unfold len in *. lia.
  - subst limit. change (- 0) with 0. change (0 <? 0) with false. cbn iota.
    rewrite Z.min_l by lia. change (Z.to_nat 0) with 0%nat.
    rewrite drop_0, take_ge by (unfold len; lia). reflexivity.
  - destruct (Z.ltb_spec (- limit) 0) as [|_]; [lia|].
    rewrite take_ge by (rewrite length_drop; unfold len in *; lia).
    destruct (Z.le_gt_cases (- limit) (len mail_ids)) as [Hle|Hgt].
    + now rewrite Z.min_l by lia.
    + rewrite Z.min_r by lia.
      rewrite !drop_ge; [reflexivity | unfold len in *; lia | unfold len; lia].
Qed.

Lemma fetch_order_by_limit_witness :
  fetch_order [1; 2; 3; 4; 5] 2 = [5; 4]
  /\ fetch_order [1; 2; 3; 4; 5] 0 = [5; 4; 3; 2; 1]
  /\ fetch_order [1; 2; 3; 4; 5] (-2) = [5; 4; 3].
Proof.
  destruct (fetch_order_by_limit [1; 2; 3; 4; 5] 2) as [H1 _].
  destruct (fetch_order_by_limit [1; 2; 3; 4; 5] 0) as (_ & H2 & _).
  destruct (fetch_order_by_limit [1; 2; 3; 4; 5] (-2)) as (_ & _ & H3).
  rewrite H1, H2, H3 by lia. repeat split.
Defined.

Lemma strip_sub (s : str) :
  exists pre post, s = pre ++ strip s ++ post.
Proof.
  destruct (lstrip_decompose s) as (t & E & _).
  destruct (rstrip_decompose (lstrip s)) as (t' & E' & _).
  exists t, t'. unfold strip. now rewrite <- E', <- E.
Qed.

(** X21: the snippet of a message ends with "...", has at most 203
    characters, holds no line feed, and has no whitespace at its
    beginning. *)
Theorem snippet_shape (body : str) :
  (str_of "..." `suffix_of` snippet body)
  /\ len (snippet body) <= 203
  /\ (10%N ∉ snippet body)
  /\ (forall c rest, snippet body = c :: rest -> isspace c = false).
Proof.
  unfold snippet.
  set (flat := (fun c => if N.eqb c 10 then SPACE else c) <$> py_slice body 0 200).
  assert (Hlen : (length flat <= 200)%nat).
  { unfold flat, py_slice, slice_bound. rewrite length_fmap, length_take.
    assert (Hn := len_nonneg body).
    change (0 <? 0) with false. change (200 <? 0) with false. cbn iota. lia. }
  assert (Hlf : 10%N ∉ flat).
  { unfold flat. intros H. apply list_elem_of_fmap in H as (c & Hc & _).
    destruct (N.eqb_spec c 10); [discriminate | congruence]. }
  destruct (strip_sub flat) as (pre & post & E).
  split; [now exists (strip flat)|]. split; [|split].
  - unfold len. rewrite length_app. change (length (str_of "...")) with 3%nat.
    apply (f_equal length) in E. rewrite !length_app in E. lia.
  - intros H. apply elem_of_app in H as [H|H].
    + apply Hlf. rewrite E. apply elem_of_app. right.
      apply elem_of_app. now left.
    + change (str_of "...") with [46%N; 46%N; 46%N] in H.
      repeat (apply elem_of_cons in H as [H|H]; [discriminate|]).
      now apply not_elem_of_nil in H.
  - intros c rest Hs.
    destruct (strip_shape flat) as [E0|(c0 & r & d & E0 & Hc0 & _)].
    + rewrite E0 in Hs. cbn in Hs. now injection Hs as <- _.
    + rewrite E0 in Hs. cbn in Hs. now injection Hs as <- _.
Qed.

End CheckEmail.
